(** * fimd: the watcher lifecycle engine of [fimd_impl.cc]

    A shallow embedding of the request handlers [CreateWatch] and
    [DestroyWatch], of the registry lookup, of the path and event-mask
    mapping and of the message-queue sink, and of the stand-alone
    watcher of [fim-inotify.c], followed by the properties of the
    specification that concern them and by further properties of the
    code.

    Conventions.
    - A C++ [int], [uint32_t], [mqd_t] or [ssize_t] is a [Z]; [EOF] is [-1].
    - A [std::string] is a Rocq [string] and may hold any byte.  Where
      the source goes through [c_str()] the callee sees the bytes before
      the first NUL only: that view is [c_str].
    - Kernel calls are recorded, in program order, in a trace kept in
      the state of the service; what the kernel answers is read from a
      supply kept in the same state. *)

From Stdlib Require Import ZArith List String Ascii Bool Lia.
From Stdlib Require Import DecimalString.
From Stdlib Require DecimalFacts DecimalPos.
Import ListNotations.
Local Open Scope Z_scope.
Local Open Scope list_scope.

Definition EOF : Z := -1.

(** ** C strings *)

Module CStr.

Definition NUL : ascii := Ascii.zero.

Definition uchar (c : ascii) : Z := Z.of_N (N_of_ascii c).

(** What a callee reads through the pointer returned by
    [std::string::c_str()]. *)
Fixpoint c_str (s : string) : string :=
  match s with
  | EmptyString => EmptyString
  | String c t => if Ascii.eqb c NUL then EmptyString else String c (c_str t)
  end.

Fixpoint nul_free (s : string) : bool :=
  match s with
  | EmptyString => true
  | String c t => negb (Ascii.eqb c NUL) && nul_free t
  end.

(** [strcmp(a, b)]: the difference of the first pair of bytes that
    differ, both strings ending at their first NUL. *)
Fixpoint strcmp (a b : string) : Z :=
  match a, b with
  | EmptyString, EmptyString => 0
  | EmptyString, String d _ => 0 - uchar d
  | String c _, EmptyString => uchar c - 0
  | String c a', String d b' =>
      if Ascii.eqb c d
      then (if Ascii.eqb c NUL then 0 else strcmp a' b')
      else uchar c - uchar d
  end.

(** [strncmp(a, b, n)]: as [strcmp], over at most [n] bytes. *)
Fixpoint strncmp (a b : string) (n : nat) : Z :=
  match n with
  | O => 0
  | S n' =>
      match a, b with
      | EmptyString, EmptyString => 0
      | EmptyString, String d _ => 0 - uchar d
      | String c _, EmptyString => uchar c - 0
      | String c a', String d b' =>
          if Ascii.eqb c d
          then (if Ascii.eqb c NUL then 0 else strncmp a' b' n')
          else uchar c - uchar d
      end
  end.

(** [strlen]. *)
Definition strlen (s : string) : nat := String.length (c_str s).

(** [strcpy(dst, src)], as the contents of [dst] afterwards. *)
Definition strcpy (src : string) : string := c_str src.

End CStr.
Import CStr.

(** ** The event classes of <sys/inotify.h> *)

Module Inotify.
Definition IN_ACCESS        : Z := 0x001.
Definition IN_MODIFY        : Z := 0x002.
Definition IN_ATTRIB        : Z := 0x004.
Definition IN_CLOSE_WRITE   : Z := 0x008.
Definition IN_CLOSE_NOWRITE : Z := 0x010.
Definition IN_OPEN          : Z := 0x020.
Definition IN_MOVED_FROM    : Z := 0x040.
Definition IN_MOVED_TO      : Z := 0x080.
Definition IN_CREATE        : Z := 0x100.
Definition IN_DELETE        : Z := 0x200.
Definition IN_DELETE_SELF   : Z := 0x400.
Definition IN_MOVE_SELF     : Z := 0x800.
Definition IN_CLOSE : Z := Z.lor IN_CLOSE_WRITE IN_CLOSE_NOWRITE.
Definition IN_MOVE  : Z := Z.lor IN_MOVED_FROM IN_MOVED_TO.
Definition IN_ALL_EVENTS : Z :=
  fold_right Z.lor 0
    [IN_ACCESS; IN_MODIFY; IN_ATTRIB; IN_CLOSE_WRITE; IN_CLOSE_NOWRITE;
     IN_OPEN; IN_MOVED_FROM; IN_MOVED_TO; IN_CREATE; IN_DELETE;
     IN_DELETE_SELF; IN_MOVE_SELF].
End Inotify.
Import Inotify.

(** ** Messages of the RPC surface *)

(** [fim::FimWatcherSubject]. *)
Record FimWatcherSubject := {
  path : list string;
  event : list string;
  recursive : bool
}.

(** [fim::FimdConfig]. *)
Record FimdConfig := {
  cfg_nodename : string;
  cfg_podname : string;
  containerid : list string;
  logformat : string;
  subject : list FimWatcherSubject
}.

(** ** Path and event mapping *)

(** A [uint32_t] keeps the low 32 bits. *)
Definition uint32 (z : Z) : Z := z mod 2 ^ 32.

(** The body of the lambda of [getEventMaskFromSubject]: one event name,
    compared as a C string against each token in turn. *)
Definition add_event (mask : Z) (event : string) : Z :=
  let evt := event in
  if strcmp evt "all" =? 0 then uint32 (Z.lor mask IN_ALL_EVENTS)
  else if strcmp evt "access" =? 0 then uint32 (Z.lor mask IN_ACCESS)
  else if strcmp evt "modify" =? 0 then uint32 (Z.lor mask IN_MODIFY)
  else if strcmp evt "attrib" =? 0 then uint32 (Z.lor mask IN_ATTRIB)
  else if strcmp evt "open" =? 0 then uint32 (Z.lor mask IN_OPEN)
  else if strcmp evt "close" =? 0 then uint32 (Z.lor mask IN_CLOSE)
  else if strcmp evt "create" =? 0 then uint32 (Z.lor mask IN_CREATE)
  else if strcmp evt "delete" =? 0 then uint32 (Z.lor mask IN_DELETE)
  else if strcmp evt "move" =? 0 then uint32 (Z.lor mask IN_MOVE)
  else mask.

Definition getEventMaskFromSubject (subject : FimWatcherSubject) : Z :=
  fold_left add_event (event subject) 0.

(** The table of recognized event names, as the specification gives it. *)
Definition event_table : list (string * Z) :=
  [ ("all"%string, IN_ALL_EVENTS); ("access"%string, IN_ACCESS);
    ("modify"%string, IN_MODIFY); ("attrib"%string, IN_ATTRIB);
    ("open"%string, IN_OPEN); ("close"%string, IN_CLOSE);
    ("create"%string, IN_CREATE); ("delete"%string, IN_DELETE);
    ("move"%string, IN_MOVE) ].

Definition recognized (name : string) : bool :=
  existsb (String.eqb name) (map fst event_table).

(** The kernel class of an event name; [0] for a name outside the table. *)
Definition event_class (name : string) : Z :=
  match find (fun kv => String.eqb (fst kv) name) event_table with
  | Some kv => snd kv
  | None => 0
  end.

(** [ss << pid] on a [std::stringstream] in the classic locale. *)
Definition ostream_int (pid : Z) : string :=
  NilZero.string_of_int (Z.to_int pid).

(** The body of the lambda of [getPathArrayFromSubject]:
    [ss << "/proc/" << pid << "/root" << path.c_str(); ss.str()]. *)
Definition proc_root_path (pid : Z) (path : string) : string :=
  let ss := EmptyString in
  let ss := (ss ++ "/proc/")%string in
  let ss := (ss ++ ostream_int pid)%string in
  let ss := (ss ++ "/root")%string in
  let ss := (ss ++ c_str path)%string in
  ss.

(** [getPathArrayFromSubject]: [pathvec] is filled with [push_back], then
    every entry is copied with [strcpy] into the array handed to the
    worker. *)
Definition getPathArrayFromSubject (pid : Z) (subject : FimWatcherSubject)
  : list string :=
  let pathvec :=
    fold_left (fun vec p => vec ++ [proc_root_path pid p]) (path subject) [] in
  map (fun s => strcpy (c_str s)) pathvec.

(** ** [google::protobuf::RepeatedField<int32>]

    The field keeps its elements in one array; its iterators are plain
    pointers into that array, so a position is an index.  [elements] is
    the array, of which the first [current_size] slots are the field's
    contents; the slots behind them keep whatever was last stored
    there. *)

Module RepeatedField.

Record t := {
  elements : list Z;
  current_size : nat
}.

Definition empty : t := {| elements := []; current_size := 0 |}.

Definition of_list (l : list Z) : t :=
  {| elements := l; current_size := List.length l |}.

(** The elements between [cbegin()] and [cend()]. *)
Definition contents (rf : t) : list Z :=
  firstn (current_size rf) (elements rf).

Definition wf (rf : t) : Prop :=
  (current_size rf <= List.length (elements rf))%nat.

(** [Add(v)]: store into the slot behind the last element. *)
Definition Add (rf : t) (v : Z) : t :=
  let n := current_size rf in
  {| elements := firstn n (elements rf) ++ v :: skipn (S n) (elements rf);
     current_size := S n |}.

(** [Clear()]. *)
Definition Clear (rf : t) : t :=
  {| elements := elements rf; current_size := 0 |}.

(** [erase(position)]: [std::copy(position + 1, cend(), position)]
    moves the tail one slot down, then [Truncate] drops the size by
    one.  The slot that held the last element is not written. *)
Definition erase (rf : t) (position : nat) : t :=
  let n := current_size rf in
  let a := elements rf in
  {| elements :=
       firstn position a
       ++ firstn (n - 1 - position) (skipn (S position) a)
       ++ skipn (n - 1) a;
     current_size := n - 1 |}.

(** The copy constructor copies the contents. *)
Definition copy (rf : t) : t := of_list (contents rf).

End RepeatedField.

Module RF := RepeatedField.

(** The loop of [eraseEventProcessfd], with [it] the iterator: stop at
    [cend()], erase and [break] at the first slot equal to [processfd]. *)
Fixpoint erase_scan (rf : RF.t) (processfd : Z) (it : nat) (fuel : nat)
  : RF.t :=
  match fuel with
  | O => rf
  | S fuel' =>
      if (it <? RF.current_size rf)%nat then
        match nth_error (RF.elements rf) it with
        | Some v =>
            if v =? processfd then RF.erase rf it
            else erase_scan rf processfd (S it) fuel'
        | None => rf
        end
      else rf
  end.

Definition eraseEventProcessfd (eventProcessfds : RF.t) (processfd : Z)
  : RF.t :=
  erase_scan eventProcessfds processfd 0 (RF.current_size eventProcessfds).

(** [fim::FimdHandle].  [pid] is only appended to and read, so it is
    kept as the list of its contents. *)
Record FimdHandle := {
  nodename : string;
  podname : string;
  pid : list Z;
  mqfd : Z;
  processeventfd : RF.t
}.

Definition default_handle : FimdHandle :=
  {| nodename := EmptyString; podname := EmptyString; pid := [];
     mqfd := 0; processeventfd := RF.empty |}.

Definition set_processeventfd (h : FimdHandle) (rf : RF.t) : FimdHandle :=
  {| nodename := nodename h; podname := podname h; pid := pid h;
     mqfd := mqfd h; processeventfd := rf |}.

Definition set_nodename (h : FimdHandle) (s : string) : FimdHandle :=
  {| nodename := s; podname := podname h; pid := pid h;
     mqfd := mqfd h; processeventfd := processeventfd h |}.

Definition set_podname (h : FimdHandle) (s : string) : FimdHandle :=
  {| nodename := nodename h; podname := s; pid := pid h;
     mqfd := mqfd h; processeventfd := processeventfd h |}.

Definition set_mqfd (h : FimdHandle) (mq : Z) : FimdHandle :=
  {| nodename := nodename h; podname := podname h; pid := pid h;
     mqfd := mq; processeventfd := processeventfd h |}.

Definition add_pid (h : FimdHandle) (p : Z) : FimdHandle :=
  {| nodename := nodename h; podname := podname h; pid := pid h ++ [p];
     mqfd := mqfd h; processeventfd := processeventfd h |}.

(** The copy that [std::make_shared<fim::FimdHandle>] makes of the
    response. *)
Definition copy_handle (h : FimdHandle) : FimdHandle :=
  set_processeventfd h (RF.copy (processeventfd h)).

(** ** The state of the service and the calls it makes *)

Inductive Status := OK | CANCELLED.

(** What leaves the handlers: log lines, kernel calls with their
    arguments (and their result where the code reads it), and the
    detached threads with the arguments they are started on. *)
Inductive Call :=
| LogInfo (msg : string)
| Eventfd (initval result : Z)
| WriteFd (fd value : Z) (count : nat)
| MqSend (mq : Z) (msg : string) (len : nat) (prio : Z)
| MqClose (mq : Z)
| MqUnlink (name : string)
| MqOpen (name : string) (maxmsg msgsize result : Z)
| InotifyThread (pid : Z) (pathc : nat) (patharr : list string)
    (event_mask : Z) (rec : bool) (processfd mq : Z)
| CleanupThread (processfd : Z)
| QueueThread (logFormat nodeName podName : string) (mq : Z).

(** [FimdImpl]: the members [watchers_] and [mq_], the trace of calls
    made so far, and the answers the kernel will give to the coming
    [eventfd] and [mq_open] calls (an exhausted supply answers [EOF]).
    A [std::shared_ptr] stored in [watchers_] is identified with its
    position in the vector: every entry comes from its own
    [make_shared]. *)
Record Fimd := {
  watchers_ : list FimdHandle;
  mq_ : Z;
  trace : list Call;
  eventfd_supply : list Z;
  mq_open_supply : list Z
}.

(** A state monad over [Fimd]. *)
Definition M (A : Type) : Type := Fimd -> A * Fimd.

Definition ret {A} (a : A) : M A := fun s => (a, s).

Definition bind {A B} (m : M A) (k : A -> M B) : M B :=
  fun s => let (a, s') := m s in k a s'.

Declare Scope fimd_scope.
Delimit Scope fimd_scope with fimd.
Notation "x <- c1 ;; c2" := (bind c1 (fun x => c2))
  (at level 61, c1 at next level, right associativity) : fimd_scope.
Notation "c1 ;; c2" := (bind c1 (fun _ => c2))
  (at level 61, right associativity) : fimd_scope.
Local Open Scope fimd_scope.

Definition call (c : Call) : M unit :=
  fun s => (tt, {| watchers_ := watchers_ s; mq_ := mq_ s;
                   trace := trace s ++ [c];
                   eventfd_supply := eventfd_supply s;
                   mq_open_supply := mq_open_supply s |}).

Definition get_watchers : M (list FimdHandle) := fun s => (watchers_ s, s).

Definition put_watchers (ws : list FimdHandle) : M unit :=
  fun s => (tt, {| watchers_ := ws; mq_ := mq_ s; trace := trace s;
                   eventfd_supply := eventfd_supply s;
                   mq_open_supply := mq_open_supply s |}).

Definition get_mq : M Z := fun s => (mq_ s, s).

Definition put_mq (mq : Z) : M unit :=
  fun s => (tt, {| watchers_ := watchers_ s; mq_ := mq; trace := trace s;
                   eventfd_supply := eventfd_supply s;
                   mq_open_supply := mq_open_supply s |}).

(** [eventfd(initval, EFD_CLOEXEC)]. *)
Definition eventfd (initval : Z) : M Z :=
  fun s =>
    let r := hd EOF (eventfd_supply s) in
    (r, {| watchers_ := watchers_ s; mq_ := mq_ s;
           trace := trace s ++ [Eventfd initval r];
           eventfd_supply := tl (eventfd_supply s);
           mq_open_supply := mq_open_supply s |}).

(** [mq_open(name, O_CREAT | O_CLOEXEC | O_RDWR, S_IRUSR | S_IWUSR, &attr)]. *)
Definition mq_open (name : string) (maxmsg msgsize : Z) : M Z :=
  fun s =>
    let r := hd EOF (mq_open_supply s) in
    (r, {| watchers_ := watchers_ s; mq_ := mq_ s;
           trace := trace s ++ [MqOpen name maxmsg msgsize r];
           eventfd_supply := eventfd_supply s;
           mq_open_supply := tl (mq_open_supply s) |}).

(** [std::for_each] over a container that the body does not touch, the
    body updating a local object [x]. *)
Fixpoint for_each {A X} (l : list A) (body : A -> X -> M X) (x : X) : M X :=
  match l with
  | [] => ret x
  | a :: l' => x' <- body a x ;; for_each l' body x'
  end.

(** The position of the first element that satisfies [p]
    ([std::find_if]); [None] stands for the end iterator. *)
Fixpoint find_if {A} (p : A -> bool) (l : list A) : option nat :=
  match l with
  | [] => None
  | a :: l' => if p a then Some O else option_map S (find_if p l')
  end.

(** The vector without the element at position [i]. *)
Fixpoint remove_at {A} (i : nat) (l : list A) : list A :=
  match l, i with
  | [], _ => []
  | _ :: l', O => l'
  | a :: l', S i' => a :: remove_at i' l'
  end.

(** The vector with [f] applied to the element at position [i]. *)
Fixpoint update_at {A} (i : nat) (f : A -> A) (l : list A) : list A :=
  match l, i with
  | [], _ => []
  | a :: l', O => f a :: l'
  | a :: l', S i' => a :: update_at i' f l'
  end.

(** A change made through the [shared_ptr] [watcher]. *)
Definition through (watcher : nat) (f : FimdHandle -> FimdHandle) : M unit :=
  ws <- get_watchers ;; put_watchers (update_at watcher f ws).

Definition uint64 (z : Z) : Z := z mod 2 ^ 64.

(** ** The handlers *)

Section Service.

(** The macros of [lib/fimnotify.h] and the helpers of [fimd_util.h]
    and [fimd_impl.h], none of which is among the sources, are taken
    as parameters. *)
Variable MQ_QUEUE_NAME : string.
Variable MQ_MAX_SIZE : Z.
Variable MQ_EXIT_MESSAGE : string.
Variable FIMNOTIFY_KILL : Z.
Variable getPidForContainer : string -> Z.
Variable cleanContainerId : string -> string.

(** [bool foundPid;] in the lambda of [findFimdWatcherByPids] is not
    initialised: this is the value it happens to hold. *)
Variable foundPid_indeterminate : bool.

(** [getPidsFromRequest]. *)
Definition getPidsFromRequest (request : FimdConfig) : list Z :=
  fold_left
    (fun pids containerId =>
       let pid := getPidForContainer (cleanContainerId containerId) in
       if pid =? 0 then pids else pids ++ [pid])
    (containerid request) [].

(** The lambda of [findFimdWatcherByPids]: the [for] loop assigns
    [foundPid] once per requested pid, then the node names are
    compared. *)
Definition watcher_matches (nodeName : string) (pids : list Z)
    (watcher : FimdHandle) : bool :=
  let foundPid :=
    fold_left
      (fun (_ : bool) (p : Z) =>
         match find_if (fun p' => p' =? p) (pid watcher) with
         | Some _ => true
         | None => false
         end)
      pids foundPid_indeterminate in
  String.eqb (nodename watcher) nodeName && foundPid.

Definition find_watcher (watchers : list FimdHandle) (nodeName : string)
    (pids : list Z) : option nat :=
  find_if (watcher_matches nodeName pids) watchers.

(** [findFimdWatcherByPids]; [None] is [nullptr]. *)
Definition findFimdWatcherByPids (nodeName : string) (pids : list Z)
  : M (option nat) :=
  ws <- get_watchers ;; ret (find_watcher ws nodeName pids).

(** [sendExitMessageToMessageQueue]. *)
Definition sendExitMessageToMessageQueue (watcher : nat) : M unit :=
  ws <- get_watchers ;;
  match nth_error ws watcher with
  | Some h => call (MqSend (mqfd h) MQ_EXIT_MESSAGE (strlen MQ_EXIT_MESSAGE) 1)
  | None => ret tt
  end.

(** The [std::for_each] of [sendKillSignalToWatcher].  [cbegin()] and
    [cend()] are taken once, before the loop: the body runs [count]
    times, on the slots [it], [it + 1], ... of the array, while
    [eraseEventProcessfd] changes that same array. *)
Fixpoint kill_loop (watcher : nat) (it : nat) (count : nat) : M unit :=
  match count with
  | O => ret tt
  | S count' =>
      ws <- get_watchers ;;
      match nth_error ws watcher with
      | Some h =>
          match nth_error (RF.elements (processeventfd h)) it with
          | Some processfd =>
              call (WriteFd processfd (uint64 FIMNOTIFY_KILL) 8) ;;
              through watcher
                (fun h => set_processeventfd h
                   (eraseEventProcessfd (processeventfd h) processfd)) ;;
              kill_loop watcher (S it) count'
          | None => ret tt
          end
      | None => ret tt
      end
  end.

Definition sendKillSignalToWatcher (watcher : nat) : M unit :=
  ws <- get_watchers ;;
  match nth_error ws watcher with
  | Some h => kill_loop watcher 0 (RF.current_size (processeventfd h))
  | None => ret tt
  end.

(** [createMessageQueue]. *)
Definition createMessageQueue (logFormat nodeName podName : string)
    (recreate : bool) : M Z :=
  (if recreate
   then mq <- get_mq ;; call (MqClose mq) ;; call (MqUnlink MQ_QUEUE_NAME)
   else ret tt) ;;
  mq <- mq_open MQ_QUEUE_NAME 10 MQ_MAX_SIZE ;;
  put_mq mq ;;
  if mq =? EOF then ret EOF
  else call (QueueThread logFormat nodeName podName mq) ;; ret mq.

(** [createInotifyWatcher]; [eventProcessfds] is the list of the
    response, which the call extends. *)
Definition createInotifyWatcher (subject : FimWatcherSubject) (pid : Z)
    (patharr : list string) (event_mask : Z) (eventProcessfds : RF.t)
  : M RF.t :=
  processfd <- eventfd 0 ;;
  if processfd =? EOF then ret eventProcessfds
  else
    let eventProcessfds := RF.Add eventProcessfds processfd in
    mq <- get_mq ;;
    call (InotifyThread pid (List.length (path subject)) patharr
            (uint32 event_mask) (recursive subject) processfd mq) ;;
    call (CleanupThread processfd) ;;
    ret eventProcessfds.

(** The body of the inner [for_each] of [CreateWatch], for the pid at
    hand. *)
Definition per_subject (pid : Z) (subject : FimWatcherSubject)
    (response : FimdHandle) : M FimdHandle :=
  fds <- createInotifyWatcher subject pid
           (getPathArrayFromSubject pid subject)
           (getEventMaskFromSubject subject)
           (processeventfd response) ;;
  ret (set_processeventfd response fds).

(** The body of the outer [for_each] of [CreateWatch]. *)
Definition per_pid (subjects : list FimWatcherSubject) (pid : Z)
    (response : FimdHandle) : M FimdHandle :=
  response <- for_each subjects (per_subject pid) response ;;
  ret (add_pid response pid).

(** [CreateWatch].  The response is the message the RPC layer hands
    in, freshly constructed; it is returned next to the status. *)
Definition CreateWatch (request : FimdConfig) : M (Status * FimdHandle) :=
  let response := default_handle in
  let pids := getPidsFromRequest request in
  if (List.length pids =? 0)%nat then ret (CANCELLED, response)
  else
    watcher <- findFimdWatcherByPids (cfg_nodename request) pids ;;
    match watcher with
    | None => call (LogInfo "Starting inotify watcher...")
    | Some w =>
        call (LogInfo "Updating inotify watcher...") ;;
        sendKillSignalToWatcher w ;;
        through w (fun h => set_processeventfd h (RF.Clear (processeventfd h)))
    end ;;
    let response := set_nodename response (c_str (cfg_nodename request)) in
    let response := set_podname response (c_str (cfg_podname request)) in
    mq <- createMessageQueue (logformat request) (cfg_nodename request)
            (cfg_podname request)
            (match watcher with Some _ => true | None => false end) ;;
    let response := set_mqfd response mq in
    response <- for_each pids (per_pid (subject request)) response ;;
    match watcher with
    | None =>
        ws <- get_watchers ;; put_watchers (ws ++ [copy_handle response])
    | Some w =>
        for_each (RF.contents (processeventfd response))
          (fun processfd (_ : unit) =>
             through w (fun h => set_processeventfd h
                                   (RF.Add (processeventfd h) processfd)))
          tt
    end ;;
    ret (OK, response).

(** [DestroyWatch]. *)
Definition DestroyWatch (request : FimdConfig) : M Status :=
  let pids := getPidsFromRequest request in
  if (List.length pids =? 0)%nat then ret CANCELLED
  else
    call (LogInfo "Stopping inotify watcher...") ;;
    watcher <- findFimdWatcherByPids (cfg_nodename request) pids ;;
    match watcher with
    | Some w =>
        sendExitMessageToMessageQueue w ;;
        sendKillSignalToWatcher w
    | None => ret tt
    end ;;
    ws <- get_watchers ;;
    put_watchers
      (match watcher with
       | Some w => remove_at w ws
       | None => ws
       end) ;;
    ret OK.

End Service.

(** ** The message-queue sink *)

(** Modelled from the spec: [struct fimwatch_event] of [lib/fimnotify.h],
    which is not among the sources; the specification describes it as the
    fixed-layout event record [{event_mask, is_dir, path_name,
    file_name}] that the sink obtains by reinterpreting the bytes it
    received.  The two names are character arrays inside the record. *)
Record fimwatch_event := {
  event_mask : Z;
  is_dir : bool;
  path_name : string;
  file_name : string
}.

(** Where a [char*] of the sink points: into its receive buffer, at some
    offset, or at the empty string literal of the [sep] argument. *)
Inductive pointer :=
| InBuffer (offset : Z)
| EmptyLiteral.

Definition pointer_eqb (p q : pointer) : bool :=
  match p, q with
  | InBuffer a, InBuffer b => a =? b
  | EmptyLiteral, EmptyLiteral => true
  | _, _ => false
  end.

(** [proc_regex], "/proc/[0-9]+/root". *)

Definition is_digit (c : ascii) : bool :=
  (48 <=? nat_of_ascii c)%nat && (nat_of_ascii c <=? 57)%nat.

Fixpoint strip_literal (lit s : string) : option string :=
  match lit with
  | EmptyString => Some s
  | String c lit' =>
      match s with
      | String d s' => if Ascii.eqb c d then strip_literal lit' s' else None
      | EmptyString => None
      end
  end.

Fixpoint strip_digits (s : string) : string :=
  match s with
  | String c s' => if is_digit c then strip_digits s' else s
  | EmptyString => EmptyString
  end.

Fixpoint all_digits (s : string) : bool :=
  match s with
  | EmptyString => true
  | String c s' => is_digit c && all_digits s'
  end.

(** A match of [proc_regex] that starts at the first byte of [s]: what
    is left of [s] behind the match.  [[0-9]+] takes every digit that
    follows, and no shorter run can be followed by '/'. *)
Definition match_proc_regex (s : string) : option string :=
  match strip_literal "/proc/" s with
  | Some (String c r) =>
      if is_digit c then strip_literal "/root" (strip_digits r) else None
  | _ => None
  end.

(** [std::regex_replace] of [s] with [proc_regex] and an empty
    replacement: every match, found from
    left to right, each search starting behind the previous match, is
    left out.  [skip] counts the bytes of the current match that are
    still to be dropped. *)
Fixpoint regex_replace_from (skip : nat) (s : string) : string :=
  match s with
  | EmptyString => EmptyString
  | String c s' =>
      match skip with
      | S k => regex_replace_from k s'
      | O =>
          match match_proc_regex s with
          | Some rest =>
              regex_replace_from
                (String.length s - String.length rest - 1) s'
          | None => String c (regex_replace_from 0 s')
          end
      end
  end.

Definition regex_replace_proc (s : string) : string :=
  regex_replace_from 0 (c_str s).

(** The specification's wording of the [path] field: a leading
    "/proc/<digits>/root" is stripped. *)
Definition strip_leading_proc_root (s : string) : string :=
  match match_proc_regex s with
  | Some rest => rest
  | None => s
  end.

(** [s] starts with "/proc/<digits>/root". *)
Definition has_proc_root_prefix (s : string) : bool :=
  match match_proc_regex s with
  | Some _ => true
  | None => false
  end.

(** "/proc/<digits>/root" occurs somewhere in [s]. *)
Fixpoint proc_root_occurs (s : string) : bool :=
  has_proc_root_prefix s
  || match s with
     | EmptyString => false
     | String _ s' => proc_root_occurs s'
     end.

(** The [if]/[else if] chain that chooses the label. *)
Definition mask_str (m : Z) : string :=
  if negb (Z.land m IN_ACCESS =? 0) then "IN_ACCESS"
  else if negb (Z.land m IN_MODIFY =? 0) then "IN_MODIFY"
  else if negb (Z.land m IN_ATTRIB =? 0) then "IN_ATTRIB"
  else if negb (Z.land m IN_OPEN =? 0) then "IN_OPEN"
  else if negb (Z.land m IN_CLOSE_WRITE =? 0) then "IN_CLOSE_WRITE"
  else if negb (Z.land m IN_CLOSE_NOWRITE =? 0) then "IN_CLOSE_NOWRITE"
  else if negb (Z.land m IN_CREATE =? 0) then "IN_CREATE"
  else if negb (Z.land m IN_DELETE =? 0) then "IN_DELETE"
  else if negb (Z.land m IN_DELETE_SELF =? 0) then "IN_DELETE_SELF"
  else if negb (Z.land m IN_MOVED_FROM =? 0) then "IN_MOVED_FROM"
  else if negb (Z.land m IN_MOVED_TO =? 0) then "IN_MOVED_TO"
  else if negb (Z.land m IN_MOVE_SELF =? 0) then "IN_MOVE_SELF"
  else EmptyString.

Definition DEFAULT_FORMAT : string :=
  "{event} {ftype} '{path}{sep}{file}' ({pod}:{node})".

(** What one pass through the body of the [do] loop does. *)
Inductive SinkStep :=
| StoreOutOfBounds (index : Z)
| Continue
| Done
| Formatted (format : string) (args : list (string * string)).

(** How a run of the sink ends: still in [mq_receive], finished with
    the given calls, or stopped by a store outside the buffer. *)
Inductive SinkEnd :=
| Receiving
| Finished (calls : list Call)
| Overrun (index : Z).

(** A run of the sink: the records it formatted, each with its format
    and arguments, and how it ends. *)
Definition SinkRun : Type := list (string * list (string * string)) * SinkEnd.

Section Sink.

Variable MQ_QUEUE_NAME : string.
Variable MQ_MAX_SIZE : Z.
Variable MQ_EXIT_MESSAGE : string.

(** [reinterpret_cast<struct fimwatch_event *>(buffer)]: the record
    read out of the bytes of the buffer, and the offset of its
    [file_name] array; both depend on the layout in the header. *)
Variable as_fimwatch_event : string -> fimwatch_event.
Variable file_name_offset : Z.

(** [buffer[index] = c] on [char buffer[MQ_MAX_SIZE + 1]]; [None] when
    [index] is outside the array. *)
Definition buffer_store (buffer : string) (index : Z) (c : ascii)
  : option string :=
  if (0 <=? index) && (index <? MQ_MAX_SIZE + 1) then
    Some (substring 0 (Z.to_nat index) buffer
          ++ String c (substring (S (Z.to_nat index))
                         (String.length buffer - S (Z.to_nat index)) buffer))%string
  else None.

(** The named arguments handed to [fmt::format_to]. *)
Definition format_args (nodeName podName : string) (fwevent : fimwatch_event)
  : list (string * string) :=
  [ ("event", mask_str (event_mask fwevent));
    ("ftype", if is_dir fwevent then "directory" else "file");
    ("path", regex_replace_proc (path_name fwevent));
    ("file", c_str (file_name fwevent));
    ("sep", if negb (pointer_eqb (InBuffer file_name_offset) EmptyLiteral)
            then "/" else EmptyString);
    ("pod", podName);
    ("node", nodeName) ]%string.

(** The value of a named argument. *)
Definition arg (name : string) (args : list (string * string)) : string :=
  match find (fun kv => String.eqb (fst kv) name) args with
  | Some kv => snd kv
  | None => EmptyString
  end.

(** The body of the [do] loop of [startMessageQueue], from the return
    of [mq_receive] on: [bytes_read] is what the call returned and
    [buffer] the array as the call left it. *)
Definition sink_step (logFormat nodeName podName : string)
    (bytes_read : Z) (buffer : string) : SinkStep :=
  match buffer_store buffer bytes_read NUL with
  | None => StoreOutOfBounds bytes_read
  | Some buffer =>
      if bytes_read =? EOF then Continue
      else if strncmp buffer MQ_EXIT_MESSAGE (strlen MQ_EXIT_MESSAGE) =? 0
      then Done
      else
        let fwevent := as_fimwatch_event buffer in
        Formatted
          (if negb (String.eqb logFormat EmptyString) then logFormat
           else DEFAULT_FORMAT)
          (format_args nodeName podName fwevent)
  end.

(** [startMessageQueue]: the [do] loop, run on the successive returns of
    [mq_receive] (what the call returned, and the buffer as it left it).
    A record that was formatted is kept with its format and arguments;
    the loop ends on the sentinel, with [mq_close] and [mq_unlink], and
    it is cut short by a store outside the buffer. *)
Fixpoint startMessageQueue (logFormat nodeName podName : string) (mq : Z)
    (received : list (Z * string)) : SinkRun :=
  match received with
  | [] => ([], Receiving)
  | (bytes_read, buffer) :: received' =>
      match sink_step logFormat nodeName podName bytes_read buffer with
      | StoreOutOfBounds index => ([], Overrun index)
      | Continue => startMessageQueue logFormat nodeName podName mq received'
      | Done => ([], Finished [MqClose mq; MqUnlink MQ_QUEUE_NAME])
      | Formatted format args =>
          let run :=
            startMessageQueue logFormat nodeName podName mq received' in
          ((format, args) :: fst run, snd run)
      end
  end.

End Sink.

(** ** The registry lookup as the specification words it *)

(** [watcher] is on node [nodeName] and its pid list shares an element
    with [pids]. *)
Definition covers (nodeName : string) (pids : list Z) (watcher : FimdHandle)
  : bool :=
  String.eqb (nodename watcher) nodeName
  && existsb (fun p => existsb (Z.eqb p) (pid watcher)) pids.

(** The first stored watcher that covers the request, if any. *)
Definition lookup_spec (watchers : list FimdHandle) (nodeName : string)
    (pids : list Z) : option FimdHandle :=
  find (covers nodeName pids) watchers.

(** The number of [eventfd] calls, among the next [n], that the kernel
    answers with a descriptor. *)
Definition allocation_ok (r : Z) : bool := negb (r =? EOF).

Definition allocated (n : nat) (supply : list Z) : nat :=
  List.length (filter allocation_ok (firstn n supply)).

(** ** The handlers' loops, call by call

    What the loops of the handlers amount to, written without the state:
    the theorems below relate them to the loops themselves. *)

(** The loop of [sendKillSignalToWatcher] on the descriptor list alone:
    the list it leaves and the descriptors it writes to, in order. *)
Fixpoint kill_pure (rf : RF.t) (it count : nat) : RF.t * list Z :=
  match count with
  | O => (rf, [])
  | S count' =>
      match nth_error (RF.elements rf) it with
      | Some processfd =>
          let r := kill_pure (eraseEventProcessfd rf processfd) (S it) count' in
          (fst r, processfd :: snd r)
      | None => (rf, [])
      end
  end.

(** The calls of one [createInotifyWatcher] to which [eventfd] answers
    [processfd], for the queue handle [mq]. *)
Definition worker_calls (pid : Z) (subject : FimWatcherSubject) (mq : Z)
    (processfd : Z) : list Call :=
  Eventfd 0 processfd
  :: (if processfd =? EOF then []
      else [ InotifyThread pid (List.length (path subject))
               (getPathArrayFromSubject pid subject)
               (uint32 (getEventMaskFromSubject subject))
               (recursive subject) processfd mq;
             CleanupThread processfd ]).

(** The calls of [createInotifyWatcher] over a list of (pid, subject)
    pairs, the answers of [eventfd] being read off [supply]. *)
Fixpoint spawn_calls (pairs : list (Z * FimWatcherSubject)) (mq : Z)
    (supply : list Z) : list Call :=
  match pairs with
  | [] => []
  | (pid, subject) :: pairs' =>
      worker_calls pid subject mq (hd EOF supply)
      ++ spawn_calls pairs' mq (tl supply)
  end.

(** The descriptor list after the [eventfd] answers [answers]: an answer
    other than [EOF] is appended. *)
Definition add_allocated (rf : RF.t) (answers : list Z) : RF.t :=
  fold_left (fun rf r => if r =? EOF then rf else RF.Add rf r) answers rf.

(** The calls of [createMessageQueue] from [mq_open] on, when [mq_open]
    answers [mq]. *)
Definition queue_calls (MQ_QUEUE_NAME : string) (MQ_MAX_SIZE : Z)
    (logFormat nodeName podName : string) (mq : Z) : list Call :=
  MqOpen MQ_QUEUE_NAME 10 MQ_MAX_SIZE mq
  :: (if mq =? EOF then [] else [QueueThread logFormat nodeName podName mq]).

(** The state [s] after further calls, [k] of them to [eventfd]. *)
Definition spawned (s : Fimd) (calls : list Call) (k : nat) : Fimd :=
  {| watchers_ := watchers_ s; mq_ := mq_ s; trace := trace s ++ calls;
     eventfd_supply := skipn k (eventfd_supply s);
     mq_open_supply := mq_open_supply s |}.

(** The response with further pids and another descriptor list. *)
Definition extended (response : FimdHandle) (pids : list Z) (fds : RF.t)
  : FimdHandle :=
  {| nodename := nodename response; podname := podname response;
     pid := pid response ++ pids; mqfd := mqfd response;
     processeventfd := fds |}.

(** A state that differs from [s] in the registry and the trace only. *)
Definition with_registry (s : Fimd) (ws : list FimdHandle)
    (calls : list Call) : Fimd :=
  {| watchers_ := ws; mq_ := mq_ s; trace := calls;
     eventfd_supply := eventfd_supply s;
     mq_open_supply := mq_open_supply s |}.

(** The worker is started on a descriptor that [eventfd] did hand out,
    with as many paths as the count it is given, a mask within the
    twelve classes, and the queue handle [mq]. *)
Definition worker_call_ok (mq : Z) (c : Call) : Prop :=
  match c with
  | InotifyThread _ pathc patharr event_mask _ processfd mq' =>
      pathc = List.length patharr /\ processfd <> EOF
      /\ 0 <= event_mask <= IN_ALL_EVENTS /\ mq' = mq
  | _ => True
  end.

(** The descriptors on which the calls start a worker, and those on
    which they start an observer. *)
Definition worker_fds (calls : list Call) : list Z :=
  flat_map (fun c => match c with
                     | InotifyThread _ _ _ _ _ processfd _ => [processfd]
                     | _ => []
                     end) calls.

Definition observer_fds (calls : list Call) : list Z :=
  flat_map (fun c => match c with
                     | CleanupThread processfd => [processfd]
                     | _ => []
                     end) calls.

(** The sinks the calls start. *)
Definition queue_threads (calls : list Call) : list Call :=
  filter (fun c => match c with
                   | QueueThread _ _ _ _ => true
                   | _ => false
                   end) calls.

(** The labels of the sink, in the order in which [mask_str] tests
    their classes. *)
Definition label_table : list (Z * string) :=
  [ (IN_ACCESS, "IN_ACCESS"); (IN_MODIFY, "IN_MODIFY");
    (IN_ATTRIB, "IN_ATTRIB"); (IN_OPEN, "IN_OPEN");
    (IN_CLOSE_WRITE, "IN_CLOSE_WRITE");
    (IN_CLOSE_NOWRITE, "IN_CLOSE_NOWRITE");
    (IN_CREATE, "IN_CREATE"); (IN_DELETE, "IN_DELETE");
    (IN_DELETE_SELF, "IN_DELETE_SELF"); (IN_MOVED_FROM, "IN_MOVED_FROM");
    (IN_MOVED_TO, "IN_MOVED_TO"); (IN_MOVE_SELF, "IN_MOVE_SELF") ]%string.

(** ** The stand-alone watcher of [fim-inotify.c] *)

Module Demo.

Definition IN_ISDIR : Z := 0x40000000.

(** [struct inotify_event], without its cookie; [name] is read as a C
    string. *)
Record inotify_event := {
  wd : Z;
  mask : Z;
  len : Z;
  name : string
}.

Definition newline : string := String "010"%char EmptyString.

(** The [for] loop of [handle_events] that prints the watched directory,
    over the slots [i], [i + 1], ... of [wd] and [argv] that are left:
    print the argument of the first slot that holds the descriptor of
    the event, and [break]. *)
Fixpoint print_directory (slots : list (Z * string)) (event_wd : Z) : string :=
  match slots with
  | [] => EmptyString
  | (w, arg) :: slots' =>
      if w =? event_wd then (arg ++ "/")%string
      else print_directory slots' event_wd
  end.

(** The body of the loop of [handle_events] over the events of the
    buffer: what is printed for one event.  The directory loop starts
    at slot 1. *)
Definition print_event (wds : list Z) (argv : list string)
    (event : inotify_event) : string :=
  let opened := negb (Z.eqb (Z.land (mask event) IN_OPEN) 0) in
  let modified := negb (Z.eqb (Z.land (mask event) IN_MODIFY) 0) in
  let named := negb (Z.eqb (len event) 0) in
  let is_dir := negb (Z.eqb (Z.land (mask event) IN_ISDIR) 0) in
  ((if opened then "IN_OPEN: " else EmptyString)
   ++ (if modified then "IN_MODIFY: " else EmptyString)
   ++ print_directory (tl (combine wds argv)) (wd event)
   ++ (if named then c_str (name event) else EmptyString)
   ++ (if is_dir then " [directory]" ++ newline
       else " [file]" ++ newline))%string.

(** What a [read] on the inotify descriptor gives: events, nothing
    ([0]), [-1] with [EAGAIN], or [-1] with another error. *)
Inductive read_result :=
| ReadEvents (events : list inotify_event)
| ReadNothing
| ReadAgain
| ReadError.

(** [handle_events]: the output, and whether the program went on
    ([true]) or left through [errExit("read")] ([false]).  [reads] are
    the results of the successive [read] calls. *)
Fixpoint handle_events (wds : list Z) (argv : list string)
    (reads : list read_result) : string * bool :=
  match reads with
  | [] => (EmptyString, true)
  | ReadError :: _ => (EmptyString, false)
  | ReadNothing :: _ => (EmptyString, true)
  | ReadAgain :: _ => (EmptyString, true)
  | ReadEvents events :: reads' =>
      let r := handle_events wds argv reads' in
      ((String.concat EmptyString (map (print_event wds argv) events)
        ++ fst r)%string, snd r)
  end.

(** How the start of [main] ends: with the usage line and
    [exit(EXIT_FAILURE)]; through [errExit] on the call named by
    [label], after [printed] was written to the standard error; or with
    the table of watch descriptors filled. *)
Inductive setup :=
| Usage (printed : string)
| ErrExit (label : string) (printed : string)
| Watching (wds : list Z).

(** The loop of [main] that installs the watches, from slot [i] on;
    [rest] are the arguments [argv[i]], [argv[i + 1]], ... .  Every
    call is made on [argv[2]].  The kernel answers a call on a path
    that is watched already with the descriptor of that watch, so what
    [inotify_add_watch] returns is taken as a function of the path and
    the mask. *)
Fixpoint add_watches (inotify_add_watch : string -> Z -> Z)
    (argv : list string) (i : nat) (rest : list string) (wds : list Z)
  : setup :=
  match rest with
  | [] => Watching wds
  | arg :: rest' =>
      let w := inotify_add_watch (nth 2 argv EmptyString)
                 (Z.lor IN_OPEN IN_MODIFY) in
      let wds := update_at i (fun _ => w) wds in
      if w =? -1
      then ErrExit "inotify_add_watch"
             ("Cannot watch '" ++ arg ++ "'" ++ newline)
      else add_watches inotify_add_watch argv (S i) rest' wds
  end.

(** [main] up to the polling loop.  [open_fd], [setns_result] and
    [inotify_fd] are what [open], [setns] and [inotify_init1] return;
    [calloc] is taken to succeed, and hands out zeroes. *)
Definition main_setup (open_fd setns_result inotify_fd : Z)
    (inotify_add_watch : string -> Z -> Z) (argv : list string) : setup :=
  let argc := List.length argv in
  if (argc <? 3)%nat then
    Usage (nth 0 argv EmptyString ++ " </proc/PID/ns/NAMESPACE> <paths...>"
           ++ newline)
  else if open_fd =? -1 then ErrExit "open" EmptyString
  else if setns_result =? -1 then ErrExit "setns" EmptyString
  else if inotify_fd =? -1 then ErrExit "inotify_init1" EmptyString
  else
    add_watches inotify_add_watch argv 1 (tl argv) (repeat 0 argc).

End Demo.

(** ** The event names and the pid as the specification words them *)

(** The eight event names of the specification's table. *)
Definition named_events : list string :=
  ["access"; "modify"; "attrib"; "open"; "close"; "create"; "delete";
   "move"]%string.

(** "The union of all individual classes": the classes of the eight
    names, OR-ed together. *)
Definition all_named_classes : Z :=
  fold_right Z.lor 0 (map event_class named_events).

(** The number a string of decimal digits denotes, most significant
    digit first, [acc] being the value of the digits already read. *)
Fixpoint decimal_value (acc : Z) (s : string) : Z :=
  match s with
  | EmptyString => acc
  | String c t => decimal_value (10 * acc + (uchar c - uchar "0")) t
  end.

(** [s] is the decimal numeral of the natural number [z]: digits only,
    at least one, no leading zero but for "0" itself, of value [z]. *)
Definition unsigned_numeral (z : Z) (s : string) : bool :=
  match s with
  | EmptyString => false
  | String c t =>
      all_digits s
      && (negb (Ascii.eqb c "0") || String.eqb t EmptyString)
      && (decimal_value 0 s =? z)
  end.

(** [s] is "<pid>" for [z]: the decimal numeral of [z], behind a '-'
    sign when [z] is negative. *)
Definition decimal_numeral (z : Z) (s : string) : bool :=
  match s with
  | EmptyString => false
  | String c t =>
      if Ascii.eqb c "-" then (z <? 0) && unsigned_numeral (- z) t
      else unsigned_numeral z s
  end.

(** ** Sample requests and states

    Scenario 1 of the specification: container [c1] resolves to pid
    [42]; [c2], where it resolves, to [43]. *)

Definition pid_for (containerId : string) : Z :=
  if String.eqb containerId "c1" then 42
  else if String.eqb containerId "c2" then 43
  else 0.

Definition strip_scheme (containerId : string) : string := containerId.

Definition etc_subject : FimWatcherSubject :=
  {| path := ["/etc"%string]; event := ["create"; "delete"]%string;
     recursive := false |}.

Definition request_for (containers : list string) : FimdConfig :=
  {| cfg_nodename := "nodeA"; cfg_podname := "podA";
     containerid := containers; logformat := EmptyString;
     subject := [etc_subject] |}.

(** A watcher of pod [podA] on [nodeA] over pid [42], with the given
    wake-up descriptors. *)
Definition nodeA_watcher (fds : list Z) : FimdHandle :=
  {| nodename := "nodeA"; podname := "podA"; pid := [42]; mqfd := 3;
     processeventfd := RF.of_list fds |}.

(** A service that runs that watcher. *)
Definition running (fds : list Z) : Fimd :=
  {| watchers_ := [nodeA_watcher fds]; mq_ := 3; trace := [];
     eventfd_supply := [6; 7; 8]; mq_open_supply := [4] |}.

(** A service without watchers, whose coming [eventfd] calls are
    answered by [supply]. *)
Definition idle (supply : list Z) : Fimd :=
  {| watchers_ := []; mq_ := 0; trace := [];
     eventfd_supply := supply; mq_open_supply := [3] |}.

(** An event on the watched directory [/etc] itself, and one under a
    watched directory whose own path goes through [/proc]. *)
Definition self_event : fimwatch_event :=
  {| event_mask := IN_DELETE_SELF; is_dir := true;
     path_name := "/proc/42/root/etc"; file_name := EmptyString |}.

Definition nested_proc_event : fimwatch_event :=
  {| event_mask := IN_OPEN; is_dir := false;
     path_name := "/proc/42/root/proc/1/root/etc"; file_name := "hosts" |}.

(** An event under a watched directory [/var/proc/7/root] of the
    container of pid [42]. *)
Definition later_proc_event : fimwatch_event :=
  {| event_mask := IN_OPEN; is_dir := false;
     path_name := "/proc/42/root/var/proc/7/root"; file_name := "hosts" |}.

(** A subject that asks for every event, and one whose only event name
    holds a NUL byte behind "open". *)
Definition all_subject : FimWatcherSubject :=
  {| path := ["/etc"%string]; event := ["all"%string]; recursive := false |}.

Definition open_nul_name : string := ("open" ++ String NUL "xyz")%string.

Definition open_nul_subject : FimWatcherSubject :=
  {| path := ["/etc"%string]; event := [open_nul_name]; recursive := false |}.

(** A subject whose only path holds a NUL byte. *)
Definition nul_path : string := ("/a" ++ String NUL "b")%string.

Definition nul_path_subject : FimWatcherSubject :=
  {| path := [nul_path]; event := ["open"%string]; recursive := false |}.

(** The request of scenario 1 under a node name that holds a NUL
    byte. *)
Definition nul_node_request : FimdConfig :=
  {| cfg_nodename := ("node" ++ String NUL "A")%string; cfg_podname := "podA";
     containerid := ["c1"%string]; logformat := EmptyString;
     subject := [etc_subject] |}.

(** * Properties *)

(** ** C strings *)

Lemma uchar_inj c d : uchar c = uchar d -> c = d.
Proof.
  unfold uchar; intros H.
  apply N2Z.inj in H.
  rewrite <- (ascii_N_embedding c), <- (ascii_N_embedding d).
  now f_equal.
Qed.

Lemma uchar_zero c : uchar c = 0 -> c = NUL.
Proof. intros H; apply uchar_inj; rewrite H; reflexivity. Qed.

Lemma strcmp_zero_iff a b : strcmp a b = 0 <-> c_str a = c_str b.
Proof.
  revert b; induction a as [|c a IH]; intros [|d b]; simpl.
  - tauto.
  - destruct (Ascii.eqb_spec d NUL) as [->|Hd].
    + split; reflexivity.
    + split; [|discriminate].
      intros H; exfalso; apply Hd, uchar_zero; lia.
  - destruct (Ascii.eqb_spec c NUL) as [->|Hc].
    + split; reflexivity.
    + split; [|discriminate].
      intros H; exfalso; apply Hc, uchar_zero; lia.
  - destruct (Ascii.eqb_spec c d) as [->|Hcd].
    + destruct (Ascii.eqb_spec d NUL) as [->|Hd]; [split; reflexivity|].
      rewrite IH; split; [intros ->; reflexivity|intros H; now inversion H].
    + split.
      * intros H; exfalso; apply Hcd, uchar_inj; lia.
      * destruct (Ascii.eqb_spec c NUL) as [->|Hc],
                 (Ascii.eqb_spec d NUL) as [->|Hd];
          try congruence; try discriminate.
  Qed.

Lemma c_str_nul_free s : nul_free s = true -> c_str s = s.
Proof.
  induction s as [|c s IH]; simpl; [reflexivity|].
  destruct (Ascii.eqb c NUL); simpl; [discriminate|].
  intros H; now rewrite IH.
Qed.

Lemma nul_free_c_str s : nul_free (c_str s) = true.
Proof.
  induction s as [|c s IH]; simpl; [reflexivity|].
  destruct (Ascii.eqb c NUL) eqn:E; simpl; [reflexivity|].
  now rewrite E.
Qed.

Lemma nul_free_append a b :
  nul_free (a ++ b)%string = nul_free a && nul_free b.
Proof.
  induction a as [|c a IH]; simpl; [reflexivity|].
  now rewrite IH, andb_assoc.
Qed.

Lemma nul_free_string_of_uint u :
  nul_free (NilEmpty.string_of_uint u) = true.
Proof. induction u; simpl; auto. Qed.

Lemma nul_free_ostream_int z : nul_free (ostream_int z) = true.
Proof.
  unfold ostream_int, NilZero.string_of_int.
  destruct (Z.to_int z) as [u|u]; unfold NilZero.string_of_uint;
    destruct u; simpl; auto using nul_free_string_of_uint.
Qed.

(** ** [RepeatedField] *)

Lemma contents_elements rf :
  RF.elements rf = RF.contents rf ++ skipn (RF.current_size rf) (RF.elements rf).
Proof. unfold RF.contents; now rewrite firstn_skipn. Qed.

Lemma contents_length rf :
  RF.wf rf -> List.length (RF.contents rf) = RF.current_size rf.
Proof. unfold RF.wf, RF.contents; intros H; rewrite length_firstn; lia. Qed.

Lemma contents_nth_error rf i :
  (i < RF.current_size rf)%nat ->
  nth_error (RF.elements rf) i = nth_error (RF.contents rf) i.
Proof.
  intros H; unfold RF.contents.
  now rewrite nth_error_firstn, (proj2 (Nat.ltb_lt _ _) H).
Qed.

Lemma contents_of_list l : RF.contents (RF.of_list l) = l.
Proof. unfold RF.contents, RF.of_list; simpl; apply firstn_all. Qed.

Lemma wf_of_list l : RF.wf (RF.of_list l).
Proof. unfold RF.wf, RF.of_list; simpl; lia. Qed.

Lemma firstn_app_exact {A} (l r : list A) : firstn (List.length l) (l ++ r) = l.
Proof. induction l as [|a l IH]; simpl; [now destruct r|now rewrite IH]. Qed.

Lemma skipn_app_cons {A} (l r : list A) x :
  skipn (S (List.length l)) (l ++ x :: r) = r.
Proof. induction l as [|a l IH]; simpl; [reflexivity|exact IH]. Qed.

(** The array after [erase] at the position behind [l1]. *)
Lemma erase_array (l1 l2 rest : list Z) (x : Z) :
  let a := l1 ++ x :: l2 ++ rest in
  let n := (List.length l1 + S (List.length l2))%nat in
  let p := List.length l1 in
  exists tail,
    firstn p a ++ firstn (n - 1 - p) (skipn (S p) a) ++ skipn (n - 1) a
    = (l1 ++ l2) ++ tail
    /\ List.length tail = S (List.length rest).
Proof.
  intros a n p; subst a n p.
  exists (skipn (List.length l1 + S (List.length l2) - 1)
            (l1 ++ x :: l2 ++ rest)).
  rewrite firstn_app_exact, skipn_app_cons.
  replace (List.length l1 + S (List.length l2) - 1 - List.length l1)%nat
    with (List.length l2) by lia.
  rewrite firstn_app_exact, <- app_assoc.
  split; [reflexivity|].
  rewrite length_skipn, length_app; simpl; rewrite length_app; lia.
Qed.

Lemma contents_erase rf l1 x l2 :
  RF.wf rf ->
  RF.contents rf = l1 ++ x :: l2 ->
  RF.contents (RF.erase rf (List.length l1)) = l1 ++ l2
  /\ RF.wf (RF.erase rf (List.length l1)).
Proof.
  intros Hwf Hc.
  pose proof (contents_length rf Hwf) as Hn.
  rewrite Hc, length_app in Hn; simpl in Hn.
  pose proof (contents_elements rf) as He.
  rewrite Hc, <- app_assoc in He; simpl in He.
  destruct (erase_array l1 l2 (skipn (RF.current_size rf) (RF.elements rf)) x)
    as (tail & Ht & Hlen).
  cbv zeta in Ht; rewrite <- He, Hn in Ht.
  unfold RF.contents, RF.wf, RF.erase; cbn [RF.elements RF.current_size].
  rewrite Ht.
  replace (RF.current_size rf - 1)%nat with (List.length (l1 ++ l2))
    by (rewrite length_app; lia).
  rewrite firstn_app_exact; split; [reflexivity|].
  rewrite !length_app; lia.
Qed.

Lemma erase_scan_absent rf processfd :
  ~ In processfd (RF.contents rf) ->
  forall fuel it, erase_scan rf processfd it fuel = rf.
Proof.
  intros Hnin; induction fuel as [|fuel IH]; intros it; simpl; [reflexivity|].
  destruct (Nat.ltb_spec it (RF.current_size rf)) as [Hlt|]; [|reflexivity].
  rewrite contents_nth_error by assumption.
  destruct (nth_error (RF.contents rf) it) as [v|] eqn:E; [|reflexivity].
  destruct (Z.eqb_spec v processfd) as [->|]; [|apply IH].
  exfalso; apply Hnin; eapply nth_error_In; eassumption.
Qed.

Lemma erase_scan_found rf processfd l1 l2 :
  RF.wf rf ->
  RF.contents rf = l1 ++ processfd :: l2 ->
  ~ In processfd l1 ->
  forall fuel it,
    (it <= List.length l1)%nat ->
    (it + fuel = RF.current_size rf)%nat ->
    erase_scan rf processfd it fuel = RF.erase rf (List.length l1).
Proof.
  intros Hwf Hc Hnin.
  pose proof (contents_length rf Hwf) as Hn.
  rewrite Hc, length_app in Hn; simpl in Hn.
  induction fuel as [|fuel IH]; intros it Hle Hsum; simpl; [lia|].
  destruct (Nat.ltb_spec it (RF.current_size rf)) as [Hlt|]; [|lia].
  rewrite contents_nth_error, Hc by assumption.
  destruct (Nat.eq_dec it (List.length l1)) as [->|Hne].
  - rewrite nth_error_app2, Nat.sub_diag by lia; simpl.
    now rewrite Z.eqb_refl.
  - rewrite nth_error_app1 by lia.
    destruct (nth_error l1 it) as [v|] eqn:E.
    + destruct (Z.eqb_spec v processfd) as [->|].
      * exfalso; apply Hnin; eapply nth_error_In; eassumption.
      * apply IH; lia.
    + apply nth_error_None in E; lia.
Qed.

(** The list without the first occurrence of [x]. *)
Lemma first_occurrence (x : Z) l :
  In x l -> exists l1 l2, l = l1 ++ x :: l2 /\ ~ In x l1.
Proof.
  induction l as [|a l IH]; simpl; [tauto|].
  destruct (Z.eq_dec a x) as [->|Hne].
  - intros _; exists [], l; simpl; tauto.
  - intros [H|H]; [congruence|].
    destruct (IH H) as (l1 & l2 & -> & Hn).
    exists (a :: l1), l2; simpl; split; [reflexivity|tauto].
Qed.

(** C10. [eraseEventProcessfd] on a list that holds the descriptor
    removes its first occurrence and nothing else: the elements before
    and behind it stay, in their order.  On a list that does not hold
    the descriptor it changes nothing. *)
Theorem eraseEventProcessfd_first_occurrence
    (eventProcessfds : RF.t) (processfd : Z) :
  RF.wf eventProcessfds ->
  (In processfd (RF.contents eventProcessfds) ->
   exists l1 l2,
     RF.contents eventProcessfds = l1 ++ processfd :: l2
     /\ ~ In processfd l1
     /\ RF.contents (eraseEventProcessfd eventProcessfds processfd) = l1 ++ l2)
  /\ (~ In processfd (RF.contents eventProcessfds) ->
      eraseEventProcessfd eventProcessfds processfd = eventProcessfds)
  /\ RF.wf (eraseEventProcessfd eventProcessfds processfd).
Proof.
  intros Hwf.
  assert (Hfound : forall l1 l2,
             RF.contents eventProcessfds = l1 ++ processfd :: l2 ->
             ~ In processfd l1 ->
             eraseEventProcessfd eventProcessfds processfd
             = RF.erase eventProcessfds (List.length l1)).
  { intros l1 l2 Hc Hn; unfold eraseEventProcessfd.
    eapply erase_scan_found; eauto; lia. }
  split; [|split].
  - intros Hin.
    destruct (first_occurrence _ _ Hin) as (l1 & l2 & Hc & Hn).
    exists l1, l2; repeat split; try assumption.
    rewrite (Hfound l1 l2 Hc Hn).
    now apply (contents_erase eventProcessfds l1 processfd l2).
  - intros Hn; unfold eraseEventProcessfd; now apply erase_scan_absent.
  - destruct (in_dec Z.eq_dec processfd (RF.contents eventProcessfds))
      as [Hin|Hn].
    + destruct (first_occurrence _ _ Hin) as (l1 & l2 & Hc & Hn).
      rewrite (Hfound l1 l2 Hc Hn).
      now apply (contents_erase eventProcessfds l1 processfd l2).
    + unfold eraseEventProcessfd; now rewrite erase_scan_absent.
Qed.

Lemma eraseEventProcessfd_first_occurrence_witness :
  RF.wf (RF.of_list [3; 4; 3; 5])
  /\ RF.wf (eraseEventProcessfd (RF.of_list [3; 4; 3; 5]) 3).
Proof.
  split.
  - unfold RF.wf; simpl; lia.
  - apply (eraseEventProcessfd_first_occurrence (RF.of_list [3; 4; 3; 5]) 3).
    unfold RF.wf; simpl; lia.
Defined.

(** ** The event mask *)

Lemma lor_below_pow2 a b n :
  0 < n -> 0 <= a < 2 ^ n -> 0 <= b < 2 ^ n -> 0 <= Z.lor a b < 2 ^ n.
Proof.
  intros Hn Ha Hb.
  assert (H0 : 0 <= Z.lor a b) by (apply Z.lor_nonneg; lia).
  split; [assumption|].
  destruct (Z.eq_dec (Z.lor a b) 0) as [->|Hne]; [lia|].
  apply Z.log2_lt_pow2; [lia|].
  rewrite Z.log2_lor by lia.
  assert (Hl : forall c, 0 <= c < 2 ^ n -> Z.log2 c < n).
  { intros c Hc; destruct (Z.eq_dec c 0) as [->|]; [simpl; lia|].
    apply Z.log2_lt_pow2; lia. }
  apply Z.max_lub_lt; auto.
Qed.

Lemma event_class_range name : 0 <= event_class name < 2 ^ 12.
Proof.
  unfold event_class, event_table; cbn [find fst snd].
  repeat match goal with
         | |- context [String.eqb ?a ?b] => destruct (String.eqb a b)
         end; cbv; split; congruence.
Qed.

Lemma event_class_unrecognized name :
  recognized name = false -> event_class name = 0.
Proof.
  unfold recognized, event_class, event_table;
    cbn [find fst snd map existsb].
  repeat match goal with
         | |- context [String.eqb name ?b] =>
             rewrite (String.eqb_sym name b)
         end.
  repeat match goal with
         | |- context [String.eqb ?a name] => destruct (String.eqb a name)
         end; cbn; intros; congruence.
Qed.

Lemma uint32_lor mask c :
  0 <= mask < 2 ^ 12 -> 0 <= c < 2 ^ 12 -> uint32 (Z.lor mask c) = Z.lor mask c.
Proof.
  intros Hm Hc; unfold uint32.
  pose proof (lor_below_pow2 mask c 12 ltac:(lia) Hm Hc).
  apply Z.mod_small; lia.
Qed.

Lemma add_event_class mask e :
  0 <= mask < 2 ^ 12 -> add_event mask e = Z.lor mask (event_class (c_str e)).
Proof.
  intros Hm; unfold add_event; cbv zeta.
  repeat match goal with
         | |- context [strcmp e ?lit =? 0] =>
             let H := fresh "H" in
             destruct (Z.eqb_spec (strcmp e lit) 0) as [H|H];
             rewrite strcmp_zero_iff in H;
             [ rewrite H;
               match goal with
               | |- uint32 (Z.lor _ ?c) = _ =>
                   rewrite (uint32_lor mask c Hm) by (cbv; split; congruence)
               end;
               reflexivity
             | ]
         end.
  rewrite event_class_unrecognized, Z.lor_0_r; [reflexivity|].
  unfold recognized, event_table; cbn [map fst existsb].
  repeat match goal with
         | H : c_str e <> c_str ?lit |- context [String.eqb (c_str e) ?lit] =>
             destruct (String.eqb_spec (c_str e) lit) as [E|_];
             [exfalso; apply H; rewrite E; reflexivity|]
         end.
  reflexivity.
Qed.

Lemma fold_add_event events :
  forall mask,
    0 <= mask < 2 ^ 12 ->
    fold_left add_event events mask
    = Z.lor mask
        (fold_right Z.lor 0 (map (fun e => event_class (c_str e)) events)).
Proof.
  induction events as [|e events IH]; intros mask Hm; simpl.
  - now rewrite Z.lor_0_r.
  - rewrite add_event_class by assumption.
    rewrite IH, Z.lor_assoc; [reflexivity|].
    apply lor_below_pow2; [lia|assumption|apply event_class_range].
Qed.

Lemma testbit_fold_lor {A} (f : A -> Z) (l : list A) i :
  Z.testbit (fold_right Z.lor 0 (map f l)) i
  = existsb (fun e => Z.testbit (f e) i) l.
Proof.
  induction l as [|a l IH]; simpl.
  - apply Z.testbit_0_l.
  - now rewrite Z.lor_spec, IH.
Qed.

Lemma getEventMaskFromSubject_fold subject :
  getEventMaskFromSubject subject
  = fold_right Z.lor 0 (map (fun e => event_class (c_str e)) (event subject)).
Proof.
  unfold getEventMaskFromSubject; rewrite fold_add_event by lia.
  apply Z.lor_0_l.
Qed.

Lemma fold_lor_range (events : list string) :
  0 <= fold_right Z.lor 0 (map (fun e => event_class (c_str e)) events)
  < 2 ^ 12.
Proof.
  induction events as [|e l IH]; cbn [fold_right map]; [lia|].
  apply lor_below_pow2; [lia|apply event_class_range|exact IH].
Qed.

(** OR-ing into the twelve class bits leaves them as they are. *)
Lemma lor_all_events a : 0 <= a < 2 ^ 12 -> Z.lor a 0xfff = 0xfff.
Proof.
  intros Ha; apply Z.bits_inj'; intros n Hn.
  rewrite Z.lor_spec; change 0xfff with (Z.ones 12).
  destruct (Z.lt_ge_cases n 12) as [Hlt|Hge].
  - rewrite Z.ones_spec_low by lia; apply orb_true_r.
  - rewrite Z.ones_spec_high by lia; rewrite orb_false_r.
    destruct (Z.eq_dec a 0) as [->|Hne]; [apply Z.testbit_0_l|].
    apply Z.bits_above_log2; [lia|].
    assert (Z.log2 a < 12) by (apply Z.log2_lt_pow2; lia); lia.
Qed.

Lemma fold_lor_all (events : list string) :
  existsb (fun e => String.eqb (c_str e) "all") events = true ->
  fold_right Z.lor 0 (map (fun e => event_class (c_str e)) events) = 0xfff.
Proof.
  induction events as [|e l IH]; cbn [existsb fold_right map]; [discriminate|].
  pose proof (fold_lor_range l) as Hl.
  destruct (String.eqb_spec (c_str e) "all") as [->|_]; cbn [orb].
  - intros _; change (event_class "all") with 0xfff.
    rewrite Z.lor_comm; now apply lor_all_events.
  - intros H; rewrite (IH H); apply lor_all_events, event_class_range.
Qed.

Lemma fold_lor_recognized (events : list string) :
  fold_right Z.lor 0 (map (fun e => event_class (c_str e)) events)
  = fold_right Z.lor 0
      (map (fun e => event_class (c_str e))
         (filter (fun e => recognized (c_str e)) events)).
Proof.
  induction events as [|e l IH]; cbn [filter fold_right map]; [reflexivity|].
  destruct (recognized (c_str e)) eqn:E; cbn [fold_right map].
  - now rewrite IH.
  - now rewrite (event_class_unrecognized _ E), Z.lor_0_l.
Qed.

(** C7.  The mask of a subject is the bitwise OR of the classes of its
    event names, each name read as the C string [strcmp] compares, that
    is up to its first NUL byte; bit by bit, a class bit is set exactly
    when some name of the subject maps to a class that has it.  The
    eight names map to their kernel classes.  [all] maps to
    [IN_ALL_EVENTS], the union of the twelve kernel classes: the classes
    of the eight names and, beyond them, [IN_DELETE_SELF] and
    [IN_MOVE_SELF]; so a subject that lists [all] has every one of the
    twelve bits, whatever else it lists.  A name that is not in the
    table as a C string adds nothing: the mask is that of the recognized
    names alone, and it is [0] for a subject with no name or with
    unrecognized names only.  For names without a NUL byte the C string
    is the name itself. *)
Theorem getEventMaskFromSubject_spec (subject : FimWatcherSubject) :
  getEventMaskFromSubject subject
  = fold_right Z.lor 0 (map (fun e => event_class (c_str e)) (event subject))
  /\ (forall i,
        Z.testbit (getEventMaskFromSubject subject) i
        = existsb (fun e => Z.testbit (event_class (c_str e)) i)
            (event subject))
  /\ map event_class named_events
     = [IN_ACCESS; IN_MODIFY; IN_ATTRIB; IN_OPEN;
        Z.lor IN_CLOSE_WRITE IN_CLOSE_NOWRITE; IN_CREATE; IN_DELETE;
        Z.lor IN_MOVED_FROM IN_MOVED_TO]
  /\ event_class "all"
     = fold_right Z.lor 0
         [IN_ACCESS; IN_MODIFY; IN_ATTRIB; IN_CLOSE_WRITE; IN_CLOSE_NOWRITE;
          IN_OPEN; IN_MOVED_FROM; IN_MOVED_TO; IN_CREATE; IN_DELETE;
          IN_DELETE_SELF; IN_MOVE_SELF]
  /\ (existsb (fun e => String.eqb (c_str e) "all") (event subject) = true ->
      getEventMaskFromSubject subject
      = Z.lor all_named_classes (Z.lor IN_DELETE_SELF IN_MOVE_SELF)
      /\ Z.land (getEventMaskFromSubject subject)
           (Z.lor IN_DELETE_SELF IN_MOVE_SELF)
         = Z.lor IN_DELETE_SELF IN_MOVE_SELF)
  /\ getEventMaskFromSubject subject
     = getEventMaskFromSubject
         {| path := path subject;
            event := filter (fun e => recognized (c_str e)) (event subject);
            recursive := recursive subject |}
  /\ (forallb (fun e => negb (recognized (c_str e))) (event subject) = true ->
      getEventMaskFromSubject subject = 0)
  /\ (forallb nul_free (event subject) = true ->
      getEventMaskFromSubject subject
      = fold_right Z.lor 0 (map event_class (event subject))).
Proof.
  pose proof (getEventMaskFromSubject_fold subject) as Hfold.
  split; [exact Hfold|].
  split; [intros i; rewrite Hfold; apply testbit_fold_lor|].
  split; [reflexivity|].
  split; [reflexivity|].
  split.
  { intros Hall; rewrite Hfold, (fold_lor_all _ Hall); split; reflexivity. }
  split.
  { rewrite !getEventMaskFromSubject_fold; cbn [event].
    apply fold_lor_recognized. }
  split.
  - intros Hall; rewrite Hfold; clear Hfold.
    induction (event subject) as [|e l IH]; simpl in *; [reflexivity|].
    apply andb_prop in Hall; destruct Hall as [He Hl].
    rewrite event_class_unrecognized, IH; auto.
    now destruct (recognized (c_str e)).
  - intros Hall; rewrite Hfold; clear Hfold.
    induction (event subject) as [|e l IH]; simpl in *; [reflexivity|].
    apply andb_prop in Hall; destruct Hall as [He Hl].
    now rewrite c_str_nul_free, IH.
Qed.

Lemma getEventMaskFromSubject_spec_witness :
  getEventMaskFromSubject
    {| path := []; event := ["bogus"; "Create"]%string; recursive := false |}
  = 0
  /\ getEventMaskFromSubject
       {| path := []; event := ["open"; "all"]%string; recursive := false |}
     = 0xfff
  /\ getEventMaskFromSubject
       {| path := []; event := ["open"; "move"]%string; recursive := false |}
     = Z.lor IN_OPEN (Z.lor IN_MOVED_FROM IN_MOVED_TO).
Proof.
  destruct (getEventMaskFromSubject_spec
              {| path := []; event := ["bogus"; "Create"]%string;
                 recursive := false |})
    as (_ & _ & _ & _ & _ & _ & Hnone & _).
  destruct (getEventMaskFromSubject_spec
              {| path := []; event := ["open"; "all"]%string;
                 recursive := false |})
    as (_ & _ & _ & _ & Hall & _).
  destruct (getEventMaskFromSubject_spec
              {| path := []; event := ["open"; "move"]%string;
                 recursive := false |})
    as (_ & _ & _ & _ & _ & _ & _ & Hfree).
  split; [apply Hnone; reflexivity|].
  split; [apply (proj1 (Hall eq_refl))|].
  apply Hfree; reflexivity.
Defined.

(** The claim of the specification fails on [all] and on a name with a
    NUL byte.  A subject that lists [all] gets the twelve kernel
    classes, [IN_DELETE_SELF] and [IN_MOVE_SELF] among them, which
    belong to none of the eight names: more than the union of the
    individual classes.  And a name that is in no table, "open"
    followed by a NUL byte and "xyz", is taken for "open". *)
Lemma getEventMaskFromSubject_all_and_nul :
  (getEventMaskFromSubject all_subject = 0xfff
   /\ all_named_classes = 0x3ff
   /\ getEventMaskFromSubject all_subject <> all_named_classes)
  /\ (recognized open_nul_name = false
      /\ existsb (String.eqb open_nul_name) named_events = false
      /\ getEventMaskFromSubject open_nul_subject = IN_OPEN
      /\ getEventMaskFromSubject open_nul_subject <> 0).
Proof.
  split; [split; [reflexivity|split; [reflexivity|discriminate]]|].
  split; [reflexivity|split; [reflexivity|split; [reflexivity|discriminate]]].
Qed.

(** ** The path array *)

Lemma c_str_append a b :
  nul_free a = true -> c_str (a ++ b)%string = (a ++ c_str b)%string.
Proof.
  induction a as [|c a IH]; simpl; [reflexivity|].
  destruct (Ascii.eqb c NUL); simpl; [discriminate|].
  intros H; now rewrite IH.
Qed.

Lemma c_str_idempotent s : c_str (c_str s) = c_str s.
Proof. apply c_str_nul_free, nul_free_c_str. Qed.

Lemma proc_root_path_eq pid p :
  proc_root_path pid p
  = ("/proc/" ++ ostream_int pid ++ "/root" ++ c_str p)%string.
Proof.
  unfold proc_root_path; cbv zeta.
  change (EmptyString ++ "/proc/")%string with "/proc/"%string.
  generalize (ostream_int pid); intros d.
  simpl; do 6 f_equal.
  induction d as [|c d IH]; simpl; [reflexivity|now rewrite IH].
Qed.

Lemma nul_free_proc_root_path pid p : nul_free (proc_root_path pid p) = true.
Proof.
  rewrite proc_root_path_eq, !nul_free_append.
  now rewrite nul_free_ostream_int, nul_free_c_str.
Qed.

Lemma fold_push_back {A B} (f : A -> B) (l : list A) :
  forall acc, fold_left (fun vec a => vec ++ [f a]) l acc = acc ++ map f l.
Proof.
  induction l as [|a l IH]; intros acc; simpl.
  - now rewrite app_nil_r.
  - now rewrite IH, <- app_assoc.
Qed.

Lemma getPathArrayFromSubject_map pid subject :
  getPathArrayFromSubject pid subject = map (proc_root_path pid) (path subject).
Proof.
  unfold getPathArrayFromSubject, strcpy; cbv zeta.
  rewrite fold_push_back; simpl; rewrite map_map.
  apply map_ext; intros p.
  now rewrite c_str_idempotent, c_str_nul_free
    by apply nul_free_proc_root_path.
Qed.

(** *** The pid in decimal *)

Lemma all_digits_string_of_uint u :
  all_digits (NilEmpty.string_of_uint u) = true.
Proof. induction u; simpl; auto. Qed.

Lemma decimal_value_acc u :
  forall acc,
    decimal_value (Z.pos acc) (NilEmpty.string_of_uint u)
    = Z.pos (Pos.of_uint_acc u acc).
Proof.
  induction u; intros acc;
    cbn [NilEmpty.string_of_uint decimal_value Pos.of_uint_acc];
    [reflexivity|..];
    rewrite <- IHu; f_equal; unfold uchar; simpl N_of_ascii; lia.
Qed.

Lemma decimal_value_of_uint u :
  decimal_value 0 (NilEmpty.string_of_uint u) = Z.of_N (Pos.of_uint u).
Proof.
  induction u; cbn [NilEmpty.string_of_uint decimal_value Pos.of_uint];
    [reflexivity|exact IHu|..]; apply decimal_value_acc.
Qed.

(** A digit string is the print of a [Decimal.uint]. *)
Lemma all_digits_uint s :
  all_digits s = true -> exists u, s = NilEmpty.string_of_uint u.
Proof.
  induction s as [|c s IH]; [now exists Decimal.Nil|].
  cbn [all_digits]; intros H; apply andb_prop in H; destruct H as [Hc Hs].
  destruct (IH Hs) as [u ->].
  destruct c as [[|] [|] [|] [|] [|] [|] [|] [|]]; try discriminate Hc.
  all: first [ now exists (Decimal.D0 u) | now exists (Decimal.D1 u)
             | now exists (Decimal.D2 u) | now exists (Decimal.D3 u)
             | now exists (Decimal.D4 u) | now exists (Decimal.D5 u)
             | now exists (Decimal.D6 u) | now exists (Decimal.D7 u)
             | now exists (Decimal.D8 u) | now exists (Decimal.D9 u) ].
Qed.

(** The print of a non-negative number, as a [Decimal.uint]. *)
Lemma ostream_int_uint z :
  0 <= z -> ostream_int z = NilEmpty.string_of_uint (N.to_uint (Z.to_N z)).
Proof.
  intros Hz; destruct z as [|p|p]; [reflexivity| |lia].
  unfold ostream_int; cbn [Z.to_int Z.to_N N.to_uint NilZero.string_of_int].
  unfold NilZero.string_of_uint.
  pose proof (DecimalPos.Unsigned.to_uint_nonnil p) as Hn.
  now destruct (Pos.to_uint p).
Qed.

Lemma unorm_to_uint n : Decimal.unorm (N.to_uint n) = N.to_uint n.
Proof.
  rewrite <- (DecimalPos.Unsigned.to_of (N.to_uint n)).
  f_equal; destruct n as [|p]; [reflexivity|].
  apply DecimalPos.Unsigned.of_to.
Qed.

Lemma unsigned_numeral_ostream_int z :
  0 <= z -> unsigned_numeral z (ostream_int z) = true.
Proof.
  intros Hz; rewrite (ostream_int_uint z Hz).
  pose proof (unorm_to_uint (Z.to_N z)) as Hu.
  assert (Hv : decimal_value 0
                 (NilEmpty.string_of_uint (N.to_uint (Z.to_N z))) = z).
  { rewrite decimal_value_of_uint.
    replace (Pos.of_uint (N.to_uint (Z.to_N z))) with (Z.to_N z);
      [now apply Z2N.id|].
    destruct (Z.to_N z) as [|p]; [reflexivity|].
    symmetry; apply DecimalPos.Unsigned.of_to. }
  pose proof (all_digits_string_of_uint (N.to_uint (Z.to_N z))) as Hd.
  pose proof (DecimalFacts.unorm_nonnil (N.to_uint (Z.to_N z))) as Hnn.
  rewrite Hu in Hnn.
  destruct (N.to_uint (Z.to_N z)) as [|u|u|u|u|u|u|u|u|u|u] eqn:E;
    [congruence|..];
    unfold unsigned_numeral; cbn [NilEmpty.string_of_uint] in *;
    rewrite Hd, Hv, Z.eqb_refl; try reflexivity.
  cbn [Ascii.eqb Bool.eqb negb orb andb].
  (* a leading "0" is the whole numeral *)
  unfold Decimal.unorm in Hu; cbn [Decimal.nzhead] in Hu.
  destruct (Decimal.nzhead u) eqn:En.
  - injection Hu as <-; reflexivity.
  - exfalso; eapply DecimalFacts.nzhead_nonzero; rewrite En; exact Hu.
  - discriminate Hu.
  - discriminate Hu.
  - discriminate Hu.
  - discriminate Hu.
  - discriminate Hu.
  - discriminate Hu.
  - discriminate Hu.
  - discriminate Hu.
  - discriminate Hu.
Qed.

Lemma decimal_value_digits_nonneg s :
  forall acc, 0 <= acc -> all_digits s = true -> 0 <= decimal_value acc s.
Proof.
  induction s as [|c s IH]; intros acc Hacc; cbn [all_digits decimal_value];
    [auto|].
  intros H; apply andb_prop in H; destruct H as [Hc Hs].
  apply IH; [|assumption].
  unfold is_digit in Hc; apply andb_prop in Hc; destruct Hc as [H1 H2].
  apply Nat.leb_le in H1.
  unfold uchar; change (Z.of_N (N_of_ascii "0")) with 48.
  unfold nat_of_ascii in H1; lia.
Qed.

Lemma unsigned_numeral_unique z s :
  unsigned_numeral z s = true -> 0 <= z /\ s = ostream_int z.
Proof.
  destruct s as [|c t]; [discriminate|].
  unfold unsigned_numeral.
  intros H; apply andb_prop in H; destruct H as [H Hv].
  apply andb_prop in H; destruct H as [Hd Hz].
  apply Z.eqb_eq in Hv.
  assert (Hz0 : 0 <= z).
  { rewrite <- Hv; apply decimal_value_digits_nonneg; [lia|assumption]. }
  split; [assumption|].
  rewrite (ostream_int_uint z Hz0).
  destruct (all_digits_uint _ Hd) as [u Hu].
  rewrite Hu in Hv |- *; f_equal.
  rewrite decimal_value_of_uint in Hv.
  assert (E : Pos.of_uint u = Z.to_N z) by (rewrite <- Hv; now rewrite N2Z.id).
  rewrite <- E, DecimalPos.Unsigned.to_of.
  (* [u] has no leading zero *)
  destruct u as [|u|u|u|u|u|u|u|u|u|u]; try reflexivity.
  - discriminate Hu.
  - cbn [NilEmpty.string_of_uint] in Hu; injection Hu as -> ->.
    cbn [Ascii.eqb Bool.eqb negb orb] in Hz.
    apply String.eqb_eq in Hz.
    destruct u; try discriminate Hz; reflexivity.
Qed.

Lemma decimal_numeral_ostream_int z : decimal_numeral z (ostream_int z) = true.
Proof.
  destruct (Z.lt_ge_cases z 0) as [Hneg|Hpos].
  - destruct z as [|p|p]; try lia.
    change (ostream_int (Z.neg p))
      with (String "-" (NilZero.string_of_uint (Pos.to_uint p))).
    change (NilZero.string_of_uint (Pos.to_uint p))
      with (ostream_int (Z.pos p)).
    unfold decimal_numeral; rewrite Ascii.eqb_refl.
    change (Z.neg p <? 0) with true; cbn [andb Z.opp].
    apply unsigned_numeral_ostream_int; lia.
  - pose proof (unsigned_numeral_ostream_int z ltac:(lia)) as H.
    unfold decimal_numeral.
    destruct (ostream_int z) as [|c t] eqn:E; [discriminate H|].
    destruct (Ascii.eqb_spec c "-") as [->|_]; [|exact H].
    unfold unsigned_numeral in H; cbn in H; discriminate H.
Qed.

Lemma decimal_numeral_unique z s :
  decimal_numeral z s = true -> s = ostream_int z.
Proof.
  destruct s as [|c t]; [discriminate|].
  unfold decimal_numeral.
  destruct (Ascii.eqb_spec c "-") as [->|Hc].
  - intros H; apply andb_prop in H; destruct H as [Hz Hu].
    apply Z.ltb_lt in Hz.
    apply unsigned_numeral_unique in Hu; destruct Hu as [_ ->].
    destruct z as [|p|p]; try lia; reflexivity.
  - intros H; now apply unsigned_numeral_unique in H.
Qed.

(** C8.  The array has one entry per relative path of the subject, in
    the subject's order; entry [i] is "/proc/", the pid in decimal,
    "/root" and the [i]-th path as the C string [c_str()] hands over,
    that is up to its first NUL byte: for a path without a NUL byte the
    path itself, byte for byte, trailing slash and all.  The pid in
    decimal is the one string of digits, without leading zero, whose
    value is the pid, behind a '-' for a negative pid. *)
Theorem getPathArrayFromSubject_spec (pid : Z) (subject : FimWatcherSubject) :
  List.length (getPathArrayFromSubject pid subject)
  = List.length (path subject)
  /\ decimal_numeral pid (ostream_int pid) = true
  /\ (forall digits, decimal_numeral pid digits = true ->
                     digits = ostream_int pid)
  /\ forall i p,
       nth_error (path subject) i = Some p ->
       nth_error (getPathArrayFromSubject pid subject) i
       = Some ("/proc/" ++ ostream_int pid ++ "/root" ++ c_str p)%string
       /\ (nul_free p = true ->
           nth_error (getPathArrayFromSubject pid subject) i
           = Some ("/proc/" ++ ostream_int pid ++ "/root" ++ p)%string).
Proof.
  rewrite getPathArrayFromSubject_map; split; [apply length_map|].
  split; [apply decimal_numeral_ostream_int|].
  split; [apply decimal_numeral_unique|].
  intros i p Hp.
  rewrite nth_error_map, Hp; simpl.
  rewrite proc_root_path_eq; split; [reflexivity|].
  intros Hnf; now rewrite c_str_nul_free.
Qed.

Lemma getPathArrayFromSubject_spec_witness :
  nth_error
    (getPathArrayFromSubject 42
       {| path := ["/etc"; "/var/log/"]%string; event := [];
          recursive := false |}) 1
  = Some "/proc/42/root/var/log/"%string
  /\ ostream_int 42 = "42"%string.
Proof.
  destruct (getPathArrayFromSubject_spec 42
              {| path := ["/etc"; "/var/log/"]%string; event := [];
                 recursive := false |})
    as (_ & _ & Hpid & Hpath).
  split.
  - apply (proj2 (Hpath 1%nat "/var/log/"%string eq_refl)); reflexivity.
  - symmetry; apply (Hpid "42"%string); reflexivity.
Defined.

(** The claim of the specification fails on a path with a NUL byte:
    the entry ends where the path has its first NUL byte, so it is not
    the concatenation of "/proc/42/root" and the path. *)
Lemma getPathArrayFromSubject_nul_path :
  path nul_path_subject = [nul_path]
  /\ getPathArrayFromSubject 42 nul_path_subject = ["/proc/42/root/a"%string]
  /\ getPathArrayFromSubject 42 nul_path_subject
     <> [("/proc/42/root" ++ nul_path)%string].
Proof. split; [reflexivity|split; [reflexivity|discriminate]]. Qed.

(** ** The registry lookup *)

Lemma fold_left_overwrite {A} (f : A -> bool) (l : list A) (b : bool) d :
  l <> [] -> fold_left (fun _ a => f a) l b = f (last l d).
Proof.
  revert b; induction l as [|a l IH]; intros b Hne; [congruence|].
  destruct l as [|a' l]; [reflexivity|].
  change (fold_left (fun _ a => f a) (a :: a' :: l) b)
    with (fold_left (fun _ a => f a) (a' :: l) (f a)).
  rewrite IH by discriminate; reflexivity.
Qed.

Lemma find_if_mem (p : Z) (l : list Z) :
  match find_if (fun p' => p' =? p) l with
  | Some _ => true
  | None => false
  end = existsb (Z.eqb p) l.
Proof.
  induction l as [|a l IH]; simpl; [reflexivity|].
  rewrite (Z.eqb_sym p a).
  destruct (a =? p); simpl; [reflexivity|].
  rewrite <- IH; now destruct (find_if _ l).
Qed.

(** What the lambda computes for a request with at least one pid: the
    node names agree and the last requested pid is one of the
    watcher's. *)
Lemma watcher_matches_last indet nodeName pids watcher :
  pids <> [] ->
  watcher_matches indet nodeName pids watcher
  = String.eqb (nodename watcher) nodeName
    && existsb (Z.eqb (last pids 0)) (pid watcher).
Proof.
  intros Hne; unfold watcher_matches; cbv zeta; f_equal.
  rewrite (fold_left_overwrite
             (fun p => match find_if (fun p' => p' =? p) (pid watcher) with
                       | Some _ => true
                       | None => false
                       end) pids indet 0) by assumption.
  apply find_if_mem.
Qed.

Lemma last_In (l : list Z) d : l <> [] -> In (last l d) l.
Proof.
  induction l as [|a l IH]; [congruence|]; intros _.
  destruct l as [|a' l]; [left; reflexivity|].
  right; apply IH; discriminate.
Qed.

(** A watcher the lambda accepts covers the request. *)
Lemma watcher_matches_covers indet nodeName pids watcher :
  pids <> [] ->
  watcher_matches indet nodeName pids watcher = true ->
  covers nodeName pids watcher = true.
Proof.
  intros Hne; rewrite watcher_matches_last by assumption.
  unfold covers; intros H; apply andb_prop in H; destruct H as [Hn Hp].
  rewrite Hn; simpl.
  apply existsb_exists; exists (last pids 0); split; [|assumption].
  now apply last_In.
Qed.

Lemma find_if_none {A} (p : A -> bool) (l : list A) :
  (forall a, In a l -> p a = false) -> find_if p l = None.
Proof.
  induction l as [|a l IH]; intros H; simpl; [reflexivity|].
  rewrite (H a) by (left; reflexivity).
  rewrite IH; [reflexivity|]; intros; apply H; now right.
Qed.

Lemma find_watcher_uncovered indet watchers nodeName pids :
  pids <> [] ->
  (forall w, In w watchers -> covers nodeName pids w = false) ->
  find_watcher indet watchers nodeName pids = None.
Proof.
  intros Hne Hcov; apply find_if_none; intros w Hw.
  destruct (watcher_matches indet nodeName pids w) eqn:E; [|reflexivity].
  rewrite <- (Hcov w Hw); symmetry.
  eapply watcher_matches_covers; eassumption.
Qed.

(** C1. The lookup does not return the first watcher that shares a pid
    with the request: the lambda keeps the answer for the last
    requested pid only.  With a watcher over pid [42] stored on
    [nodeA], a request for pids [42; 43] on [nodeA] finds nothing,
    though that watcher shares pid [42] with it. *)
Theorem findFimdWatcherByPids_last_pid_only (indet : bool) :
  fst (findFimdWatcherByPids indet "nodeA" [42; 43] (running [5])) = None
  /\ lookup_spec (watchers_ (running [5])) "nodeA" [42; 43]
     = Some (nodeA_watcher [5]).
Proof. split; reflexivity. Qed.

(** ** The sink *)

Lemma arg_sep MQ_off nodeName podName fwevent :
  arg "sep" (format_args MQ_off nodeName podName fwevent)
  = if negb (pointer_eqb (InBuffer MQ_off) EmptyLiteral)
    then "/"%string else EmptyString.
Proof. reflexivity. Qed.

Lemma arg_path off nodeName podName fwevent :
  arg "path" (format_args off nodeName podName fwevent)
  = regex_replace_proc (path_name fwevent).
Proof. reflexivity. Qed.

(** C5. The [sep] argument does not depend on [file_name]: the test
    compares the address of the [file_name] array with the address of a
    string literal, which differ, so [sep] is "/" for every record, the
    ones with an empty [file_name] included. *)
Theorem sep_ignores_file_name
    (file_name_offset : Z) (nodeName podName : string)
    (fwevent : fimwatch_event) :
  arg "sep" (format_args file_name_offset nodeName podName fwevent)
  = "/"%string
  /\ file_name self_event = EmptyString
  /\ arg "sep" (format_args file_name_offset nodeName podName self_event)
     = "/"%string.
Proof. repeat split. Qed.

(** C9. The terminator is stored at index [bytes_read], and the store
    comes before [bytes_read] is compared with [EOF]: when [mq_receive]
    returns [-1] the store is at index [-1], outside [buffer], and the
    loop never reaches its [continue]. *)
Theorem sink_step_stores_before_check
    (MQ_QUEUE_NAME : string) (MQ_MAX_SIZE : Z) (MQ_EXIT_MESSAGE : string)
    (as_fimwatch_event : string -> fimwatch_event) (file_name_offset : Z)
    (logFormat nodeName podName buffer : string) (mq : Z)
    (received : list (Z * string)) :
  buffer_store MQ_MAX_SIZE buffer EOF NUL = None
  /\ sink_step MQ_MAX_SIZE MQ_EXIT_MESSAGE as_fimwatch_event file_name_offset
       logFormat nodeName podName EOF buffer
     = StoreOutOfBounds (-1)
  /\ startMessageQueue MQ_QUEUE_NAME MQ_MAX_SIZE MQ_EXIT_MESSAGE
       as_fimwatch_event file_name_offset logFormat nodeName podName mq
       ((EOF, buffer) :: received)
     = ([], Overrun (-1)).
Proof. repeat split. Qed.

(** For every other value [mq_receive] returns the store is inside the
    array. *)
Lemma buffer_store_in_bounds MQ_MAX_SIZE buffer bytes_read c :
  0 <= bytes_read <= MQ_MAX_SIZE ->
  buffer_store MQ_MAX_SIZE buffer bytes_read c <> None.
Proof.
  intros H; unfold buffer_store.
  destruct (Z.leb_spec 0 bytes_read); [|lia].
  destruct (Z.ltb_spec bytes_read (MQ_MAX_SIZE + 1)); [|lia].
  discriminate.
Qed.

(** *** The [path] argument *)

Lemma string_length_append a b :
  String.length (a ++ b) = (String.length a + String.length b)%nat.
Proof. induction a as [|c a IH]; simpl; [reflexivity|now rewrite IH]. Qed.

Lemma strip_literal_some lit s r :
  strip_literal lit s = Some r -> s = (lit ++ r)%string.
Proof.
  revert s; induction lit as [|c lit IH]; intros s; simpl.
  - now intros [= ->].
  - destruct s as [|d s]; [discriminate|].
    destruct (Ascii.eqb_spec c d) as [->|]; [|discriminate].
    intros H; now rewrite (IH _ H).
Qed.

Lemma strip_digits_suffix s : exists d, s = (d ++ strip_digits s)%string.
Proof.
  induction s as [|c s [d IH]]; simpl.
  - now exists EmptyString.
  - destruct (is_digit c).
    + exists (String c d); simpl; now rewrite <- IH.
    + now exists EmptyString.
Qed.

Lemma string_append_assoc a b c :
  ((a ++ b) ++ c = a ++ (b ++ c))%string.
Proof. induction a as [|x a IH]; simpl; [reflexivity|now rewrite IH]. Qed.

(** A match is a non-empty prefix of the string. *)
Lemma match_proc_regex_some s rest :
  match_proc_regex s = Some rest ->
  exists c m, s = String c (m ++ rest).
Proof.
  unfold match_proc_regex.
  destruct (strip_literal "/proc/" s) as [[|c r]|] eqn:E1; try discriminate.
  destruct (is_digit c); [|discriminate].
  intros E2.
  apply strip_literal_some in E1, E2.
  destruct (strip_digits_suffix r) as [d Hd].
  exists "/"%char, ("proc/" ++ String c (d ++ "/root"))%string.
  rewrite E1, Hd, E2.
  change ("/proc/" ++ String c (d ++ "/root" ++ rest))%string
    with (String "/" ("proc/" ++ String c (d ++ "/root" ++ rest)))%string.
  f_equal.
  rewrite string_append_assoc; simpl.
  now rewrite string_append_assoc.
Qed.

Lemma regex_replace_skip m rest :
  regex_replace_from (String.length m) (m ++ rest) = regex_replace_from 0 rest.
Proof. induction m as [|c m IH]; simpl; [reflexivity|exact IH]. Qed.

Lemma proc_root_occurs_false s :
  proc_root_occurs s = false -> match_proc_regex s = None.
Proof.
  intros H.
  destruct s as [|c s]; cbn [proc_root_occurs] in H;
    apply orb_false_iff in H; destruct H as [H _];
    unfold has_proc_root_prefix in H;
    destruct (match_proc_regex _); congruence.
Qed.

Lemma regex_replace_no_occurrence s :
  proc_root_occurs s = false -> regex_replace_from 0 s = s.
Proof.
  induction s as [|c s IH]; [reflexivity|].
  intros H; pose proof (proc_root_occurs_false _ H) as Hm.
  cbn [regex_replace_from]; rewrite Hm.
  cbn [proc_root_occurs] in H.
  apply orb_false_iff in H; destruct H as [_ H].
  now rewrite IH.
Qed.

(** Where the string starts with a match, the replacement goes on
    behind it. *)
Lemma regex_replace_match s rest :
  match_proc_regex s = Some rest ->
  regex_replace_from 0 s = regex_replace_from 0 rest.
Proof.
  intros Hm; destruct (match_proc_regex_some _ _ Hm) as (c & m & ->).
  cbn [regex_replace_from]; rewrite Hm.
  cbn [String.length]; rewrite string_length_append.
  replace (S (String.length m + String.length rest) - String.length rest - 1)%nat
    with (String.length m) by lia.
  apply regex_replace_skip.
Qed.

(** [regex_replace] leaves out every occurrence of
    "/proc/<digits>/root", the leading one and any later one.  Where
    the path, once its leading "/proc/<digits>/root" is stripped, holds
    no further occurrence, the [path] argument is the path with that
    leading prefix stripped, and does not start with
    "/proc/<digits>/root". *)
Lemma path_field_strips_proc_root
    (file_name_offset : Z) (nodeName podName : string)
    (fwevent : fimwatch_event) :
  let p := c_str (path_name fwevent) in
  let rendered :=
    arg "path" (format_args file_name_offset nodeName podName fwevent) in
  proc_root_occurs (strip_leading_proc_root p) = false ->
  rendered = strip_leading_proc_root p
  /\ has_proc_root_prefix rendered = false.
Proof.
  intros p rendered Hocc; subst rendered.
  rewrite arg_path; unfold regex_replace_proc; fold p.
  assert (E : regex_replace_from 0 p = strip_leading_proc_root p).
  { unfold strip_leading_proc_root in *.
    destruct (match_proc_regex p) as [rest|] eqn:Hm.
    - rewrite (regex_replace_match _ _ Hm).
      now apply regex_replace_no_occurrence.
    - now apply regex_replace_no_occurrence. }
  rewrite E; split; [reflexivity|].
  unfold has_proc_root_prefix.
  now rewrite (proc_root_occurs_false _ Hocc).
Qed.

Lemma path_field_strips_proc_root_witness :
  arg "path" (format_args 0 "nodeA" "podA" self_event) = "/etc"%string
  /\ has_proc_root_prefix
       (arg "path" (format_args 0 "nodeA" "podA" self_event)) = false.
Proof.
  apply (path_field_strips_proc_root 0 "nodeA" "podA" self_event).
  reflexivity.
Defined.

(** The paths the workers watch are made by [proc_root_path]: for
    those the [path] argument is the subject's relative path, provided
    the relative path does not itself hold the pattern. *)

Lemma ostream_int_digits z :
  0 <= z ->
  exists c d,
    ostream_int z = String c d /\ is_digit c = true /\ all_digits d = true.
Proof.
  intros Hz; unfold ostream_int.
  destruct z as [|p|p]; [| |lia].
  - exists "0"%char, EmptyString; repeat split.
  - unfold Z.to_int, NilZero.string_of_int, NilZero.string_of_uint.
    destruct (Pos.to_uint p) as [|u|u|u|u|u|u|u|u|u|u];
      cbn [NilEmpty.string_of_uint];
      eexists _, _; (split; [reflexivity|]); split;
      try reflexivity; apply all_digits_string_of_uint.
Qed.

Lemma strip_digits_run d r :
  all_digits d = true ->
  strip_digits (d ++ String "/" r) = String "/" r.
Proof.
  induction d as [|c d IH]; simpl; [reflexivity|].
  intros H; apply andb_prop in H; destruct H as [Hc Hd].
  rewrite Hc; auto.
Qed.

Lemma match_proc_root_path pid rel :
  0 <= pid -> match_proc_regex (proc_root_path pid rel) = Some (c_str rel).
Proof.
  intros Hp; rewrite proc_root_path_eq.
  destruct (ostream_int_digits pid Hp) as (c & d & -> & Hc & Hd).
  unfold match_proc_regex.
  change (strip_literal "/proc/"
            ("/proc/" ++ String c d ++ "/root" ++ c_str rel))
    with (Some (String c (d ++ String "/" ("root" ++ c_str rel)))).
  cbv beta iota; rewrite Hc, strip_digits_run by assumption.
  reflexivity.
Qed.

Lemma path_field_of_watched_path pid rel :
  0 <= pid ->
  proc_root_occurs (c_str rel) = false ->
  regex_replace_proc (proc_root_path pid rel) = c_str rel.
Proof.
  intros Hp Hocc; unfold regex_replace_proc.
  rewrite (c_str_nul_free _ (nul_free_proc_root_path pid rel)).
  rewrite (regex_replace_match _ _ (match_proc_root_path pid rel Hp)).
  now apply regex_replace_no_occurrence.
Qed.

(** On a path that holds the pattern twice in a row both occurrences
    are left out, not the leading one only. *)
Lemma path_field_not_leading_strip :
  ~ (arg "path" (format_args 0 "nodeA" "podA" nested_proc_event)
     = strip_leading_proc_root (path_name nested_proc_event)
     /\ has_proc_root_prefix
          (arg "path" (format_args 0 "nodeA" "podA" nested_proc_event))
        = false).
Proof. intros [H _]; vm_compute in H; discriminate. Qed.

(** Nor is the result always free of the prefix: leaving out a match
    can bring a new one together. *)
Lemma path_field_may_keep_prefix :
  regex_replace_proc "/proc/42/root/proc/proc/1/root/1/root/x"
  = "/proc/1/root/x"%string.
Proof. reflexivity. Qed.

(** C6.  The [path] argument is not the path with its leading
    "/proc/<digits>/root" stripped: [proc_regex] is not anchored, and
    [regex_replace] leaves out a later occurrence as well.  For an
    event under [/var/proc/7/root] in the container of pid [42], the
    path with its leading prefix stripped is "/var/proc/7/root", which
    has no such prefix, and that is what the [path] argument should be;
    the sink renders "/var", whatever the node, the pod and the layout
    of the record. *)
Theorem path_field_drops_later_occurrence
    (file_name_offset : Z) (nodeName podName : string) :
  let rendered :=
    arg "path"
      (format_args file_name_offset nodeName podName later_proc_event) in
  let stripped := strip_leading_proc_root (path_name later_proc_event) in
  stripped = "/var/proc/7/root"%string
  /\ has_proc_root_prefix stripped = false
  /\ rendered = "/var"%string
  /\ has_proc_root_prefix rendered = false
  /\ rendered <> stripped.
Proof.
  cbv zeta; rewrite arg_path.
  split; [reflexivity|].
  split; [reflexivity|].
  split; [reflexivity|].
  split; [reflexivity|].
  discriminate.
Qed.

(** ** The handlers *)

Section ServiceProperties.

Variable MQ_QUEUE_NAME : string.
Variable MQ_MAX_SIZE : Z.
Variable MQ_EXIT_MESSAGE : string.
Variable FIMNOTIFY_KILL : Z.
Variable getPidForContainer : string -> Z.
Variable cleanContainerId : string -> string.
Variable indet : bool.

Local Abbreviation pids_of := (getPidsFromRequest getPidForContainer cleanContainerId).
Local Abbreviation Create :=
    (CreateWatch MQ_QUEUE_NAME MQ_MAX_SIZE FIMNOTIFY_KILL getPidForContainer
       cleanContainerId indet).
Local Abbreviation Destroy :=
    (DestroyWatch MQ_EXIT_MESSAGE FIMNOTIFY_KILL getPidForContainer
       cleanContainerId indet).

(** C4. A request none of whose container ids resolves to a pid is
    answered [CANCELLED], by [CreateWatch] and by [DestroyWatch] alike,
    and the service is left as it was: the same registry, the same
    queue handle, no call made and no thread started. *)
Theorem no_pid_cancels (request : FimdConfig) (st : Fimd) :
  pids_of request = [] ->
  Create request st = (CANCELLED, default_handle, st)
  /\ Destroy request st = (CANCELLED, st).
Proof.
  intros H; unfold CreateWatch, DestroyWatch; rewrite H; split; reflexivity.
Qed.


(** *** A first [CreateWatch] *)

Lemma contents_Add rf v :
  RF.wf rf ->
  RF.contents (RF.Add rf v) = RF.contents rf ++ [v] /\ RF.wf (RF.Add rf v).
Proof.
  unfold RF.wf, RF.contents, RF.Add; cbn [RF.elements RF.current_size].
  intros Hwf.
  set (n := RF.current_size rf) in *; set (a := RF.elements rf) in *.
  assert (Hl : List.length (firstn n a) = n) by (rewrite length_firstn; lia).
  split.
  - rewrite <- Hl at 1.
    change (firstn n a ++ v :: skipn (S n) a)
      with (firstn n a ++ [v] ++ skipn (S n) a).
    rewrite app_assoc.
    replace (S (List.length (firstn n a)))
      with (List.length (firstn n a ++ [v]))
      by (rewrite length_app; simpl; lia).
    apply firstn_app_exact.
  - rewrite length_app; simpl; lia.
Qed.

Lemma firstn_plus {A} (a b : nat) (l : list A) :
  firstn (a + b) l = firstn a l ++ firstn b (skipn a l).
Proof.
  revert l; induction a as [|a IH]; intros l; simpl; [reflexivity|].
  destruct l as [|x l]; simpl; [now rewrite firstn_nil|].
  now rewrite IH.
Qed.

Lemma skipn_plus {A} (a b : nat) (l : list A) :
  skipn (a + b) l = skipn b (skipn a l).
Proof.
  revert l; induction a as [|a IH]; intros l; simpl; [reflexivity|].
  destruct l as [|x l]; simpl; [now rewrite skipn_nil|apply IH].
Qed.

(** One [createInotifyWatcher]: the next answer of [eventfd] is used up
    and, unless it is [EOF], appended to the list. *)
Lemma createInotifyWatcher_run sub p patharr mask fds s :
  RF.wf fds ->
  let res := createInotifyWatcher sub p patharr mask fds s in
  RF.contents (fst res)
  = RF.contents fds ++ filter allocation_ok (firstn 1 (eventfd_supply s))
  /\ RF.wf (fst res)
  /\ watchers_ (snd res) = watchers_ s
  /\ eventfd_supply (snd res) = skipn 1 (eventfd_supply s).
Proof.
  intros Hwf; unfold createInotifyWatcher, bind, eventfd, get_mq, call, ret.
  cbn [fst snd].
  destruct (eventfd_supply s) as [|r supply]; cbn [hd tl firstn skipn filter].
  - change (EOF =? EOF) with true; cbn; now rewrite app_nil_r.
  - unfold allocation_ok; destruct (r =? EOF); cbn.
    + now rewrite app_nil_r.
    + destruct (contents_Add fds r Hwf); auto.
Qed.

Lemma bind_run {A B} (m : M A) (k : A -> M B) s :
  bind m k s = k (fst (m s)) (snd (m s)).
Proof. unfold bind; now destruct (m s). Qed.

Lemma for_each_cons {A X} (a : A) l (body : A -> X -> M X) x s :
  for_each (a :: l) body x s
  = for_each l body (fst (body a x s)) (snd (body a x s)).
Proof. cbn [for_each]; now rewrite bind_run. Qed.

Lemma per_subject_run p sub response s :
  per_subject p sub response s
  = let c := createInotifyWatcher sub p (getPathArrayFromSubject p sub)
               (getEventMaskFromSubject sub) (processeventfd response) s in
    (set_processeventfd response (fst c), snd c).
Proof. unfold per_subject; now rewrite bind_run. Qed.

Lemma per_pid_run subjects p response s :
  per_pid subjects p response s
  = let c := for_each subjects (per_subject p) response s in
    (add_pid (fst c) p, snd c).
Proof. unfold per_pid; now rewrite bind_run. Qed.

Lemma for_each_subjects p subs :
  forall response s,
    RF.wf (processeventfd response) ->
    let res := for_each subs (per_subject p) response s in
    let k := List.length subs in
    RF.contents (processeventfd (fst res))
    = RF.contents (processeventfd response)
      ++ filter allocation_ok (firstn k (eventfd_supply s))
    /\ RF.wf (processeventfd (fst res))
    /\ nodename (fst res) = nodename response
    /\ pid (fst res) = pid response
    /\ watchers_ (snd res) = watchers_ s
    /\ eventfd_supply (snd res) = skipn k (eventfd_supply s).
Proof.
  induction subs as [|sub subs IH]; intros response s Hwf.
  - cbn; rewrite app_nil_r; repeat split; auto.
  - cbv zeta; rewrite for_each_cons, per_subject_run; cbv zeta; cbn [fst snd].
    destruct (createInotifyWatcher_run sub p
                (getPathArrayFromSubject p sub)
                (getEventMaskFromSubject sub)
                (processeventfd response) s Hwf) as (Hc & Hwf1 & Hw & He).
    set (c := createInotifyWatcher sub p _ _ _ s) in *.
    destruct (IH (set_processeventfd response (fst c)) (snd c) Hwf1)
      as (Hc' & Hwf' & Hn' & Hp' & Hw' & He').
    rewrite Hc', Hn', Hp', Hw', He'.
    cbn [processeventfd set_processeventfd nodename pid List.length].
    rewrite Hc, He, Hw, <- app_assoc, <- filter_app.
    change (S (List.length subs)) with (1 + List.length subs)%nat.
    rewrite firstn_plus, skipn_plus; repeat split; auto.
Qed.

Lemma for_each_pids subjects pids :
  forall response s,
    RF.wf (processeventfd response) ->
    let res := for_each pids (per_pid subjects) response s in
    let n := (List.length pids * List.length subjects)%nat in
    RF.contents (processeventfd (fst res))
    = RF.contents (processeventfd response)
      ++ filter allocation_ok (firstn n (eventfd_supply s))
    /\ RF.wf (processeventfd (fst res))
    /\ nodename (fst res) = nodename response
    /\ pid (fst res) = pid response ++ pids
    /\ watchers_ (snd res) = watchers_ s.
Proof.
  induction pids as [|p pids IH]; intros response s Hwf.
  - cbn; rewrite !app_nil_r; repeat split; auto.
  - cbv zeta; rewrite for_each_cons, per_pid_run; cbv zeta; cbn [fst snd].
    destruct (for_each_subjects p subjects response s Hwf)
      as (Hc & Hwf1 & Hn & Hp & Hw & He).
    set (c := for_each subjects (per_subject p) response s) in *.
    destruct (IH (add_pid (fst c) p) (snd c) Hwf1)
      as (Hc' & Hwf' & Hn' & Hp' & Hw').
    rewrite Hc', Hn', Hp', Hw'.
    cbn [processeventfd add_pid nodename pid List.length].
    rewrite Hc, He, Hw, Hn, Hp, <- !app_assoc, <- filter_app.
    cbn [Nat.mul]; rewrite firstn_plus; repeat split; auto.
Qed.

Lemma createMessageQueue_frame logFormat nodeName podName s :
  watchers_ (snd (createMessageQueue MQ_QUEUE_NAME MQ_MAX_SIZE logFormat
                    nodeName podName false s)) = watchers_ s
  /\ eventfd_supply (snd (createMessageQueue MQ_QUEUE_NAME MQ_MAX_SIZE
                            logFormat nodeName podName false s))
     = eventfd_supply s.
Proof.
  unfold createMessageQueue, bind, mq_open, put_mq, call, ret.
  destruct (hd EOF (mq_open_supply s) =? EOF); split; reflexivity.
Qed.

Lemma covers_self nodeName pids w :
  pids <> [] -> nodename w = nodeName -> pid w = pids ->
  covers nodeName pids w = true.
Proof.
  intros Hne Hn Hp; unfold covers; rewrite Hn, Hp, String.eqb_refl; simpl.
  destruct pids as [|p pids]; [congruence|].
  simpl; now rewrite Z.eqb_refl.
Qed.

Lemma filter_none {A} (f : A -> bool) l :
  (forall a, In a l -> f a = false) -> filter f l = [].
Proof.
  induction l as [|a l IH]; intros H; simpl; [reflexivity|].
  rewrite (H a) by (left; reflexivity).
  apply IH; intros; apply H; now right.
Qed.

(** C2.  A [CreateWatch] with at least one resolved pid, on a registry
    in which no watcher covers the request, returns [OK] and appends
    one watcher, over the resolved pids and under the requested node
    name as [c_str()] hands it over, that is up to its first NUL byte.
    For a node name without a NUL byte that is the requested name, and
    the new watcher is then the only one that covers the request.  Its
    descriptor list holds the descriptors that [eventfd] handed out
    during the (pids x subjects) calls, in order: a call that [eventfd]
    answers with [EOF] adds none.  So the list has (subjects x pids)
    entries when every allocation succeeds, and fewer, by the number of
    [EOF] answers, otherwise. *)
Theorem CreateWatch_fresh (request : FimdConfig) (st : Fimd) :
  let pids := pids_of request in
  let n := (List.length pids * List.length (subject request))%nat in
  pids <> [] ->
  (forall w, In w (watchers_ st) ->
             covers (cfg_nodename request) pids w = false) ->
  exists response st' w,
    Create request st = (OK, response, st')
    /\ watchers_ st' = watchers_ st ++ [w]
    /\ nodename w = c_str (cfg_nodename request)
    /\ pid w = pids
    /\ (nul_free (cfg_nodename request) = true ->
        nodename w = cfg_nodename request
        /\ filter (covers (cfg_nodename request) pids) (watchers_ st') = [w])
    /\ RF.contents (processeventfd w)
       = filter allocation_ok (firstn n (eventfd_supply st))
    /\ List.length (RF.contents (processeventfd w))
       = allocated n (eventfd_supply st)
    /\ (allocated n (eventfd_supply st) = n ->
        List.length (RF.contents (processeventfd w))
        = (List.length (subject request) * List.length pids)%nat)
    /\ (List.length (RF.contents (processeventfd w))
        + List.length
            (filter (fun fd => negb (allocation_ok fd))
               (firstn n (eventfd_supply st)))
        = List.length (firstn n (eventfd_supply st)))%nat.
Proof.
  intros pids n Hne Hcov.
  unfold CreateWatch; fold pids.
  assert (Hlen : (List.length pids =? 0)%nat = false).
  { destruct pids; [congruence|reflexivity]. }
  rewrite Hlen.
  assert (Hfind : findFimdWatcherByPids indet (cfg_nodename request) pids st
                  = (None, st)).
  { unfold findFimdWatcherByPids, get_watchers, bind, ret.
    now rewrite find_watcher_uncovered. }
  rewrite bind_run, Hfind; cbn [fst snd].
  repeat (rewrite bind_run; cbv beta).
  set (s1 := snd (call (LogInfo "Starting inotify watcher...") st)).
  destruct (createMessageQueue_frame (logformat request)
              (cfg_nodename request) (cfg_podname request) s1) as (Hw2 & He2).
  set (c2 := createMessageQueue MQ_QUEUE_NAME MQ_MAX_SIZE (logformat request)
               (cfg_nodename request) (cfg_podname request) false s1) in *.
  set (r0 := set_mqfd _ (fst c2)).
  assert (Hwf0 : RF.wf (processeventfd r0)) by (unfold RF.wf; simpl; lia).
  destruct (for_each_pids (subject request) pids r0 (snd c2) Hwf0)
    as (Hc & Hwf & Hn & Hp & Hw).
  set (c3 := for_each pids (per_pid (subject request)) r0 (snd c2)) in *.
  rewrite He2 in Hc; rewrite Hw2 in Hw.
  change (eventfd_supply s1) with (eventfd_supply st) in Hc.
  change (watchers_ s1) with (watchers_ st) in Hw.
  change (RF.contents (processeventfd r0)) with (@nil Z) in Hc.
  change (pid r0) with (@nil Z) in Hp.
  change (nodename r0) with (c_str (cfg_nodename request)) in Hn.
  cbn [app] in Hc, Hp.
  fold n in Hc.
  exists (fst c3), (snd (put_watchers
                           (watchers_ (snd c3) ++ [copy_handle (fst c3)])
                           (snd c3))), (copy_handle (fst c3)).
  assert (Hcw : RF.contents (processeventfd (copy_handle (fst c3)))
                = filter allocation_ok (firstn n (eventfd_supply st))).
  { unfold copy_handle, RF.copy; cbn [processeventfd set_processeventfd].
    now rewrite contents_of_list. }
  split; [reflexivity|].
  cbn [put_watchers snd watchers_]; rewrite Hw.
  split; [reflexivity|].
  split; [exact Hn|].
  split; [exact Hp|].
  split.
  { intros Hnul.
    assert (Hn' : nodename (copy_handle (fst c3)) = cfg_nodename request).
    { change (nodename (copy_handle (fst c3))) with (nodename (fst c3)).
      now rewrite Hn, c_str_nul_free. }
    split; [exact Hn'|].
    rewrite filter_app, (filter_none _ _ Hcov); cbn [filter app].
    now rewrite (covers_self _ _ (copy_handle (fst c3)) Hne Hn' Hp). }
  split; [exact Hcw|].
  split; [now rewrite Hcw|].
  split; [rewrite Hcw; unfold allocated; intros ->; subst n;
          apply Nat.mul_comm|].
  rewrite Hcw.
  generalize (firstn n (eventfd_supply st)); intros l.
  induction l as [|fd l IH]; cbn [filter List.length negb]; [reflexivity|].
  destruct (allocation_ok fd); cbn [negb List.length]; lia.
Qed.
End ServiceProperties.

Lemma no_pid_cancels_witness :
  CreateWatch "/fimd" 1024 1 pid_for strip_scheme false
    (request_for ["c9"%string]) (running [5])
  = (CANCELLED, default_handle, running [5])
  /\ DestroyWatch "exit" 1 pid_for strip_scheme false
       (request_for ["c9"%string]) (running [5])
     = (CANCELLED, running [5]).
Proof.
  apply (no_pid_cancels "/fimd" 1024 "exit" 1 pid_for strip_scheme false
           (request_for ["c9"%string]) (running [5])).
  reflexivity.
Defined.


Lemma CreateWatch_fresh_witness :
  exists response st' w,
    CreateWatch "/fimd" 1024 1 pid_for strip_scheme false
      (request_for ["c1"%string]) (idle [5]) = (OK, response, st')
    /\ watchers_ st' = [w]
    /\ nodename w = "nodeA"%string
    /\ filter (covers "nodeA" [42]) (watchers_ st') = [w]
    /\ List.length (RF.contents (processeventfd w)) = 1%nat.
Proof.
  destruct (CreateWatch_fresh "/fimd" 1024 1 pid_for strip_scheme false
              (request_for ["c1"%string]) (idle [5]))
    as (response & st' & w & H1 & H2 & _ & _ & Hname & _ & H7 & _).
  - vm_compute; discriminate.
  - intros w [].
  - destruct (Hname eq_refl) as [Hnode Hone].
    exists response, st', w; auto.
Defined.

(** The claim of the specification fails when [eventfd] fails: the
    request is answered [OK] and its watcher is stored, with no
    descriptor for the one (pid, subject) pair. *)
Lemma CreateWatch_eventfd_failure :
  fst (fst (CreateWatch "/fimd" 1024 1 pid_for strip_scheme false
              (request_for ["c1"%string]) (idle [EOF]))) = OK
  /\ map (fun w => (nodename w, pid w,
                    List.length (RF.contents (processeventfd w))))
       (watchers_
          (snd (CreateWatch "/fimd" 1024 1 pid_for strip_scheme false
                  (request_for ["c1"%string]) (idle [EOF]))))
     = [("nodeA"%string, [42], 0%nat)]
  /\ (List.length (subject (request_for ["c1"%string]))
      * List.length
          (getPidsFromRequest pid_for strip_scheme (request_for ["c1"%string])))%nat
     = 1%nat.
Proof. repeat split. Qed.

(** Nor is the new watcher one for the requested (node, pid-set) when
    the node name holds a NUL byte: the request is answered [OK] and
    its watcher is stored under the name cut at that byte, so that no
    stored watcher covers the request. *)
Lemma CreateWatch_nul_node_name :
  let run :=
    CreateWatch "/fimd" 1024 1 pid_for strip_scheme false nul_node_request
      (idle [5]) in
  fst (fst run) = OK
  /\ map (fun w => (nodename w, pid w)) (watchers_ (snd run))
     = [("node"%string, [42])]
  /\ filter (covers (cfg_nodename nul_node_request)
               (getPidsFromRequest pid_for strip_scheme nul_node_request))
       (watchers_ (snd run))
     = [].
Proof. repeat split. Qed.

(** *** [DestroyWatch] *)

(** With two descriptors the loop signals each of them and leaves the
    list empty. *)
Lemma sendKillSignalToWatcher_pair (FIMNOTIFY_KILL a b : Z) :
  trace (snd (sendKillSignalToWatcher FIMNOTIFY_KILL 0 (running [a; b])))
  = [ WriteFd a (uint64 FIMNOTIFY_KILL) 8; WriteFd b (uint64 FIMNOTIFY_KILL) 8 ]
  /\ map (fun w => RF.contents (processeventfd w))
       (watchers_ (snd (sendKillSignalToWatcher FIMNOTIFY_KILL 0
                          (running [a; b]))))
     = [[]].
Proof.
  unfold sendKillSignalToWatcher, running, bind, get_watchers; cbn.
  unfold eraseEventProcessfd; cbn.
  rewrite Z.eqb_refl; cbn.
  unfold eraseEventProcessfd; cbn.
  rewrite Z.eqb_refl; cbn.
  split; reflexivity.
Qed.

(** With three distinct descriptors the second is passed over. *)
Lemma sendKillSignalToWatcher_triple (FIMNOTIFY_KILL a b c : Z) :
  a <> b -> b <> c -> a <> c ->
  trace (snd (sendKillSignalToWatcher FIMNOTIFY_KILL 0 (running [a; b; c])))
  = [ WriteFd a (uint64 FIMNOTIFY_KILL) 8; WriteFd c (uint64 FIMNOTIFY_KILL) 8;
      WriteFd c (uint64 FIMNOTIFY_KILL) 8 ]
  /\ map (fun w => RF.contents (processeventfd w))
       (watchers_ (snd (sendKillSignalToWatcher FIMNOTIFY_KILL 0
                          (running [a; b; c]))))
     = [[b]].
Proof.
  intros Hab Hbc Hac.
  apply Z.eqb_neq in Hab, Hbc, Hac.
  unfold sendKillSignalToWatcher, running, bind, get_watchers; cbn.
  unfold eraseEventProcessfd; cbn.
  rewrite Z.eqb_refl; cbn.
  unfold eraseEventProcessfd; cbn.
  rewrite Hbc, Z.eqb_refl; cbn.
  unfold eraseEventProcessfd; cbn.
  rewrite Hbc; cbn.
  split; reflexivity.
Qed.

(** C3.  [DestroyWatch] sends the sentinel, with priority 1, before any
    wake-up write; but the loop of [sendKillSignalToWatcher] walks the
    descriptor array while [eraseEventProcessfd] shifts it.  On a
    watcher with the descriptors [5; 6; 7] the writes go to 5, 7 and 7:
    descriptor 6 is never signalled, and it is still listed when the
    loop ends. *)
Theorem DestroyWatch_skips_descriptor
    (MQ_EXIT_MESSAGE : string) (FIMNOTIFY_KILL : Z) (indet : bool) :
  DestroyWatch MQ_EXIT_MESSAGE FIMNOTIFY_KILL pid_for strip_scheme indet
    (request_for ["c1"%string]) (running [5; 6; 7]) =
  (OK,
   {| watchers_ := []; mq_ := 3;
      trace := [ LogInfo "Stopping inotify watcher...";
                 MqSend 3 MQ_EXIT_MESSAGE (strlen MQ_EXIT_MESSAGE) 1;
                 WriteFd 5 (uint64 FIMNOTIFY_KILL) 8;
                 WriteFd 7 (uint64 FIMNOTIFY_KILL) 8;
                 WriteFd 7 (uint64 FIMNOTIFY_KILL) 8 ];
      eventfd_supply := [6; 7; 8]; mq_open_supply := [4] |})
  /\ map (fun w => RF.contents (processeventfd w))
       (watchers_
          (snd (sendKillSignalToWatcher FIMNOTIFY_KILL 0 (running [5; 6; 7]))))
     = [[6]].
Proof. split; reflexivity. Qed.

(** * Further properties of the code *)

(** ** [getPidsFromRequest] *)

Lemma fold_left_filter_map {A} (f : A -> Z) (l : list A) :
  forall acc,
    fold_left (fun pids a => if f a =? 0 then pids else pids ++ [f a]) l acc
    = acc ++ filter (fun p => negb (p =? 0)) (map f l).
Proof.
  induction l as [|a l IH]; intros acc; simpl.
  - now rewrite app_nil_r.
  - rewrite IH; destruct (f a =? 0); simpl; [reflexivity|].
    now rewrite <- app_assoc.
Qed.

(** X1. The pids of a request are the pids its container ids resolve
    to, in the order of the container ids, without the ids that resolve
    to [0]: the result never holds [0] and is never longer than the list
    of container ids. *)
Theorem getPidsFromRequest_resolved
    (getPidForContainer : string -> Z) (cleanContainerId : string -> string)
    (request : FimdConfig) :
  let pids := getPidsFromRequest getPidForContainer cleanContainerId request in
  pids = filter (fun p => negb (p =? 0))
           (map (fun c => getPidForContainer (cleanContainerId c))
              (containerid request))
  /\ ~ In 0 pids
  /\ (List.length pids <= List.length (containerid request))%nat.
Proof.
  cbv zeta; unfold getPidsFromRequest.
  rewrite (fold_left_filter_map
             (fun c => getPidForContainer (cleanContainerId c))); simpl.
  split; [reflexivity|split].
  - intros H; apply filter_In in H; destruct H as [_ H]; discriminate.
  - rewrite <- (length_map (fun c => getPidForContainer (cleanContainerId c))
                  (containerid request)).
    apply filter_length_le.
Qed.

(** ** [findFimdWatcherByPids] *)

Lemma find_if_some {A} (p : A -> bool) (l : list A) i :
  find_if p l = Some i ->
  exists a,
    nth_error l i = Some a /\ p a = true
    /\ forall j b, (j < i)%nat -> nth_error l j = Some b -> p b = false.
Proof.
  revert i; induction l as [|a l IH]; intros i; simpl; [discriminate|].
  destruct (p a) eqn:Ea.
  - intros [= <-]; exists a; repeat split; auto; intros; lia.
  - destruct (find_if p l) as [k|] eqn:Ek; simpl; [|discriminate].
    intros [= <-]; destruct (IH k eq_refl) as (b & Hb & Hpb & Hlt).
    exists b; repeat split; auto.
    intros [|j] c Hj; simpl; [now intros [= <-]|].
    apply Hlt; lia.
Qed.

Lemma find_if_find {A} (p : A -> bool) (l : list A) :
  match find_if p l with
  | Some i => nth_error l i
  | None => None
  end = find p l.
Proof.
  induction l as [|a l IH]; simpl; [reflexivity|].
  destruct (p a); [reflexivity|].
  rewrite <- IH; now destruct (find_if p l).
Qed.

Lemma find_pointwise {A} (p q : A -> bool) (l : list A) :
  (forall a, p a = q a) -> find p l = find q l.
Proof.
  intros H; induction l as [|a l IH]; simpl; [reflexivity|].
  now rewrite H, IH.
Qed.

(** X2. For a request with at least one pid, a watcher the lookup
    returns is stored in the registry, is on the requested node and
    holds the last requested pid, so it does cover the request; and no
    watcher stored before it is on that node with that pid.  The lookup
    leaves the service as it is. *)
Theorem findFimdWatcherByPids_sound
    (indet : bool) (nodeName : string) (pids : list Z) (st : Fimd) (i : nat) :
  pids <> [] ->
  fst (findFimdWatcherByPids indet nodeName pids st) = Some i ->
  snd (findFimdWatcherByPids indet nodeName pids st) = st
  /\ exists w,
       nth_error (watchers_ st) i = Some w
       /\ nodename w = nodeName
       /\ In (last pids 0) (pid w)
       /\ covers nodeName pids w = true
       /\ forall j w',
            (j < i)%nat -> nth_error (watchers_ st) j = Some w' ->
            ~ (nodename w' = nodeName /\ In (last pids 0) (pid w')).
Proof.
  intros Hne; unfold findFimdWatcherByPids, get_watchers, bind, ret; simpl.
  intros Hfind; split; [reflexivity|].
  destruct (find_if_some _ _ _ Hfind) as (w & Hw & Hm & Hlt).
  exists w; split; [assumption|].
  pose proof (watcher_matches_covers _ _ _ _ Hne Hm) as Hcov.
  rewrite watcher_matches_last in Hm by assumption.
  apply andb_prop in Hm; destruct Hm as [Hn Hp].
  apply String.eqb_eq in Hn.
  apply existsb_exists in Hp; destruct Hp as (q & Hq & Hpq).
  apply Z.eqb_eq in Hpq; subst q.
  repeat split; auto.
  intros j w' Hj Hw' [Hn' Hp'].
  specialize (Hlt j w' Hj Hw').
  rewrite watcher_matches_last in Hlt by assumption.
  rewrite Hn', String.eqb_refl in Hlt; simpl in Hlt.
  assert (existsb (Z.eqb (last pids 0)) (pid w') = true); [|congruence].
  apply existsb_exists; exists (last pids 0); split; [assumption|].
  apply Z.eqb_refl.
Qed.

Lemma findFimdWatcherByPids_sound_witness :
  exists w,
    nth_error (watchers_ (running [5])) 0 = Some w
    /\ nodename w = "nodeA"%string.
Proof.
  destruct (findFimdWatcherByPids_sound false "nodeA" [43; 42] (running [5]) 0)
    as (_ & w & Hw & Hn & _).
  - discriminate.
  - reflexivity.
  - exists w; split; assumption.
Defined.

(** X3. For a request with exactly one pid the lookup is the lookup
    of the specification: it returns the first stored watcher that is on
    the requested node and holds that pid, and none when there is no
    such watcher. *)
Theorem findFimdWatcherByPids_single_pid
    (indet : bool) (nodeName : string) (p : Z) (st : Fimd) :
  match fst (findFimdWatcherByPids indet nodeName [p] st) with
  | Some i => nth_error (watchers_ st) i
  | None => None
  end = lookup_spec (watchers_ st) nodeName [p].
Proof.
  unfold findFimdWatcherByPids, get_watchers, bind, ret, find_watcher,
    lookup_spec; simpl.
  rewrite find_if_find.
  apply find_pointwise; intros w.
  rewrite watcher_matches_last by discriminate.
  unfold covers; simpl; now rewrite orb_false_r.
Qed.

(** ** [eraseEventProcessfd] *)

(** X4. A descriptor that is appended to a list that did not hold it,
    as [createInotifyWatcher] does, and then erased, as the clean-up of
    a failed worker does, leaves the list as it was before. *)
Theorem eraseEventProcessfd_Add (eventProcessfds : RF.t) (processfd : Z) :
  RF.wf eventProcessfds ->
  ~ In processfd (RF.contents eventProcessfds) ->
  RF.contents (eraseEventProcessfd (RF.Add eventProcessfds processfd) processfd)
  = RF.contents eventProcessfds.
Proof.
  intros Hwf Hnin.
  destruct (contents_Add eventProcessfds processfd Hwf) as [Hc Hwf'].
  unfold eraseEventProcessfd.
  rewrite (erase_scan_found _ processfd (RF.contents eventProcessfds) []
             Hwf' Hc Hnin) by (simpl; lia).
  destruct (contents_erase _ _ _ _ Hwf' Hc) as [He _].
  now rewrite He, app_nil_r.
Qed.

Lemma eraseEventProcessfd_Add_witness :
  RF.contents (eraseEventProcessfd (RF.Add (RF.of_list [5; 6]) 7) 7) = [5; 6].
Proof.
  apply (eraseEventProcessfd_Add (RF.of_list [5; 6]) 7).
  - unfold RF.wf; simpl; lia.
  - simpl; intros [H|[H|[]]]; discriminate.
Defined.

(** ** [getEventMaskFromSubject] *)

(** X5. The mask of a subject never leaves the twelve class bits: it
    lies between 0 and [IN_ALL_EVENTS], so the [uint32_t] it is kept in
    and the cast made when the worker is started lose nothing. *)
Theorem getEventMaskFromSubject_range (subject : FimWatcherSubject) :
  0 <= getEventMaskFromSubject subject <= IN_ALL_EVENTS
  /\ uint32 (getEventMaskFromSubject subject) = getEventMaskFromSubject subject
  /\ Z.land (getEventMaskFromSubject subject) IN_ALL_EVENTS
     = getEventMaskFromSubject subject.
Proof.
  rewrite getEventMaskFromSubject_fold.
  pose proof (fold_lor_range (event subject)) as H.
  set (m := fold_right _ _ _) in *.
  split; [change IN_ALL_EVENTS with 4095; lia|].
  split; [unfold uint32; apply Z.mod_small; lia|].
  change IN_ALL_EVENTS with (Z.ones 12).
  rewrite Z.land_ones by lia.
  apply Z.mod_small; lia.
Qed.

(** X6. The mask depends on which event names the subject lists, not on
    their order nor on how often each is listed. *)
Theorem getEventMaskFromSubject_same_names (s1 s2 : FimWatcherSubject) :
  (forall e, In e (event s1) <-> In e (event s2)) ->
  getEventMaskFromSubject s1 = getEventMaskFromSubject s2.
Proof.
  intros H; rewrite !getEventMaskFromSubject_fold.
  apply Z.bits_inj; intros i; rewrite !testbit_fold_lor.
  apply eq_true_iff_eq; rewrite !existsb_exists.
  split; intros (e & He & Hb); exists e; split; auto; now apply H.
Qed.

Lemma getEventMaskFromSubject_same_names_witness :
  getEventMaskFromSubject
    {| path := []; event := ["open"; "create"; "open"]%string;
       recursive := false |}
  = getEventMaskFromSubject
      {| path := []; event := ["create"; "open"]%string; recursive := true |}.
Proof.
  apply getEventMaskFromSubject_same_names; simpl; intros e; tauto.
Defined.

(** ** The labels of the sink *)

Lemma land_fold_lor_zero m (classes : list Z) :
  Z.land m (fold_right Z.lor 0 classes) = 0
  <-> Forall (fun c => Z.land m c = 0) classes.
Proof.
  induction classes as [|c l IH]; simpl.
  - rewrite Z.land_0_r; split; auto.
  - rewrite Z.land_lor_distr_r, Z.lor_eq_0_iff, IH.
    split; [intros [H1 H2]; now constructor|intros H; now inversion H].
Qed.

(** X7. The label the sink gives an event is that of the first class,
    in the order access, modify, attrib, open, close-write,
    close-nowrite, create, delete, delete-self, moved-from, moved-to,
    move-self, that the event mask holds: the classes before it are
    absent from the mask.  The label is empty exactly when the mask
    holds none of the twelve classes. *)
Theorem mask_str_first_class (m : Z) :
  (mask_str m = EmptyString <-> Z.land m IN_ALL_EVENTS = 0)
  /\ (mask_str m <> EmptyString ->
      exists before c after,
        label_table = before ++ (c, mask_str m) :: after
        /\ Z.land m c <> 0
        /\ Forall (fun cl => Z.land m (fst cl) = 0) before).
Proof.
  split.
  - unfold IN_ALL_EVENTS; rewrite land_fold_lor_zero.
    unfold mask_str; split.
    + intros H.
      repeat match goal with
             | H : context [Z.land m ?c =? 0] |- _ =>
                 destruct (Z.eqb_spec (Z.land m c) 0);
                 cbn [negb] in H; [|discriminate H]
             end.
      repeat constructor; assumption.
    + intros H.
      repeat match goal with
             | H : Forall _ (_ :: _) |- _ => inversion H; clear H; subst
             end.
      repeat match goal with
             | H : Z.land m ?c = 0 |- _ => rewrite H; clear H
             end.
      reflexivity.
  - unfold mask_str; intros Hne.
    repeat match goal with
           | |- context [Z.land m ?c =? 0] =>
               destruct (Z.eqb_spec (Z.land m c) 0); cbn [negb] in *
           end;
      try congruence;
      match goal with
      | H : Z.land m ?c <> 0 |- exists _ _ _, _ = _ ++ (_, ?name) :: _ /\ _ =>
          let rec split_at l acc :=
            lazymatch l with
            | (c, name) :: ?tl =>
                exists (rev acc), c, tl
            | ?x :: ?tl => split_at tl (x :: acc)
            end in
          let t := eval unfold label_table in label_table in
          split_at t (@nil (Z * string))
      end;
      (split; [reflexivity|]); (split; [assumption|]);
      cbn [rev app]; repeat constructor; assumption.
Qed.

Lemma mask_str_first_class_witness :
  exists before c after,
    label_table = before ++ (c, mask_str (Z.lor IN_CREATE 0x40000000)) :: after
    /\ Z.land (Z.lor IN_CREATE 0x40000000) c <> 0.
Proof.
  destruct (proj2 (mask_str_first_class (Z.lor IN_CREATE 0x40000000)))
    as (before & c & after & H1 & H2 & _).
  - vm_compute; discriminate.
  - exists before, c, after; split; assumption.
Defined.

(** ** From the watched path back to the subject's path *)

(** X8. The path array and the sink's [path] argument undo each other:
    for a pid that is not negative and a relative path of the subject
    that holds no NUL byte and no "/proc/<digits>/root" of its own, an
    event whose [path_name] is the array's entry for that path is
    rendered with exactly the subject's relative path. *)
Theorem watched_path_round_trip
    (pid : Z) (subject : FimWatcherSubject) (i : nat) (p : string)
    (file_name_offset : Z) (nodeName podName : string) :
  0 <= pid ->
  nth_error (path subject) i = Some p ->
  nul_free p = true ->
  proc_root_occurs p = false ->
  exists watched,
    nth_error (getPathArrayFromSubject pid subject) i = Some watched
    /\ forall fwevent,
         path_name fwevent = watched ->
         arg "path" (format_args file_name_offset nodeName podName fwevent) = p.
Proof.
  intros Hpid Hp Hnf Hocc.
  exists (proc_root_path pid p); split.
  - now rewrite getPathArrayFromSubject_map, nth_error_map, Hp.
  - intros fwevent Hpn; rewrite arg_path, Hpn.
    rewrite path_field_of_watched_path;
      [now apply c_str_nul_free|assumption|now rewrite c_str_nul_free].
Qed.

Lemma watched_path_round_trip_witness :
  exists watched,
    nth_error (getPathArrayFromSubject 42 etc_subject) 0 = Some watched
    /\ forall fwevent,
         path_name fwevent = watched ->
         arg "path" (format_args 0 "nodeA" "podA" fwevent) = "/etc"%string.
Proof.
  apply (watched_path_round_trip 42 etc_subject 0 "/etc" 0 "nodeA" "podA").
  - lia.
  - reflexivity.
  - reflexivity.
  - reflexivity.
Defined.

(** ** The sentinel *)

Lemma strncmp_none a b : strncmp a b 0 = 0.
Proof. now destruct a. Qed.

Lemma strncmp_sentinel_prefix msg rest :
  strncmp (c_str msg ++ rest) msg (strlen msg) = 0.
Proof.
  unfold strlen; induction msg as [|c msg IH]; [apply strncmp_none|].
  cbn [c_str]; destruct (Ascii.eqb_spec c NUL) as [->|Hc];
    [apply strncmp_none|].
  cbn [String.append String.length strncmp].
  rewrite Ascii.eqb_refl.
  destruct (Ascii.eqb_spec c NUL); [contradiction|exact IH].
Qed.

Lemma substring_0_append pre rest n :
  (String.length pre <= n)%nat ->
  substring 0 n (pre ++ rest)
  = (pre ++ substring 0 (n - String.length pre) rest)%string.
Proof.
  revert n; induction pre as [|c pre IH]; intros n Hn; simpl.
  - now rewrite Nat.sub_0_r.
  - destruct n as [|n]; simpl in *; [lia|].
    rewrite IH by lia; reflexivity.
Qed.

(** X9. A message that starts with the bytes of [MQ_EXIT_MESSAGE], and
    is at least that long, ends the sink whatever follows those bytes:
    the queue is closed and unlinked, nothing is formatted, and the
    messages behind it are never looked at. *)
Theorem startMessageQueue_sentinel
    (MQ_QUEUE_NAME : string) (MQ_MAX_SIZE : Z) (MQ_EXIT_MESSAGE : string)
    (as_fimwatch_event : string -> fimwatch_event) (file_name_offset : Z)
    (logFormat nodeName podName : string) (mq : Z)
    (bytes_read : Z) (rest : string) (received : list (Z * string)) :
  0 <= bytes_read <= MQ_MAX_SIZE ->
  Z.of_nat (strlen MQ_EXIT_MESSAGE) <= bytes_read ->
  startMessageQueue MQ_QUEUE_NAME MQ_MAX_SIZE MQ_EXIT_MESSAGE
    as_fimwatch_event file_name_offset logFormat nodeName podName mq
    ((bytes_read, (c_str MQ_EXIT_MESSAGE ++ rest)%string) :: received)
  = ([], Finished [MqClose mq; MqUnlink MQ_QUEUE_NAME]).
Proof.
  intros Hb Hlen; cbn [startMessageQueue].
  assert (Hstep : sink_step MQ_MAX_SIZE MQ_EXIT_MESSAGE as_fimwatch_event
                    file_name_offset logFormat nodeName podName bytes_read
                    (c_str MQ_EXIT_MESSAGE ++ rest) = Done);
    [|now rewrite Hstep].
  unfold sink_step, buffer_store.
  destruct (Z.leb_spec 0 bytes_read); [|lia].
  destruct (Z.ltb_spec bytes_read (MQ_MAX_SIZE + 1)); [|lia].
  cbn [andb].
  destruct (Z.eqb_spec bytes_read EOF) as [E|_]; [unfold EOF in E; lia|].
  rewrite substring_0_append by (unfold strlen in Hlen; lia).
  rewrite string_append_assoc, strncmp_sentinel_prefix.
  reflexivity.
Qed.

Lemma startMessageQueue_sentinel_witness :
  startMessageQueue "/fimd" 1024 "exit" (fun _ => self_event) 8
    EmptyString "nodeA" "podA" 3
    [(6, "exit;;"%string); (4, "more"%string)]
  = ([], Finished [MqClose 3; MqUnlink "/fimd"]).
Proof.
  apply (startMessageQueue_sentinel "/fimd" 1024 "exit" (fun _ => self_event) 8
           EmptyString "nodeA" "podA" 3 6 ";;"
           [(4, "more"%string)]).
  - lia.
  - simpl; lia.
Defined.

(** ** [sendKillSignalToWatcher] *)

Lemma with_registry_same s : with_registry s (watchers_ s) (trace s) = s.
Proof. now destruct s. Qed.

Lemma set_processeventfd_same h : set_processeventfd h (processeventfd h) = h.
Proof. now destruct h. Qed.

Lemma nth_error_update_at {A} (f : A -> A) (l : list A) w a :
  nth_error l w = Some a -> nth_error (update_at w f l) w = Some (f a).
Proof.
  revert w; induction l as [|b l IH]; intros [|w]; simpl; try discriminate.
  - now intros [= ->].
  - apply IH.
Qed.

Lemma nth_error_update_at_other {A} (f : A -> A) (l : list A) w j :
  j <> w -> nth_error (update_at w f l) j = nth_error l j.
Proof.
  revert w j; induction l as [|b l IH]; intros [|w] [|j] H; simpl;
    try reflexivity; try congruence.
  apply IH; congruence.
Qed.

Lemma update_at_twice {A} (f g : A -> A) (l : list A) w :
  update_at w g (update_at w f l) = update_at w (fun a => g (f a)) l.
Proof.
  revert w; induction l as [|b l IH]; intros [|w]; simpl; try reflexivity.
  now rewrite IH.
Qed.

Lemma update_at_value {A} (f g : A -> A) (l : list A) w a :
  nth_error l w = Some a -> f a = g a -> update_at w f l = update_at w g l.
Proof.
  revert w; induction l as [|b l IH]; intros [|w]; simpl; try discriminate.
  - now intros [= ->] ->.
  - intros H1 H2; now rewrite (IH _ H1 H2).
Qed.

Lemma update_at_same {A} (f : A -> A) (l : list A) w a :
  nth_error l w = Some a -> f a = a -> update_at w f l = l.
Proof.
  revert w; induction l as [|b l IH]; intros [|w]; simpl; try discriminate.
  - now intros [= ->] ->.
  - intros H1 H2; now rewrite (IH _ H1 H2).
Qed.

Lemma length_update_at {A} (f : A -> A) (l : list A) w :
  List.length (update_at w f l) = List.length l.
Proof.
  revert w; induction l as [|b l IH]; intros [|w]; simpl; auto.
Qed.

Lemma remove_at_update_at {A} (f : A -> A) (l : list A) w :
  remove_at w (update_at w f l) = remove_at w l.
Proof.
  revert w; induction l as [|b l IH]; intros [|w]; simpl; try reflexivity.
  now rewrite IH.
Qed.

(** The loop of [sendKillSignalToWatcher] changes the descriptor list of
    its watcher as [kill_pure] says, and writes to the descriptors
    [kill_pure] lists. *)
Lemma kill_loop_pure FIMNOTIFY_KILL watcher count :
  forall it s h,
    nth_error (watchers_ s) watcher = Some h ->
    kill_loop FIMNOTIFY_KILL watcher it count s
    = (tt,
       with_registry s
         (update_at watcher
            (fun _ => set_processeventfd h
                        (fst (kill_pure (processeventfd h) it count)))
            (watchers_ s))
         (trace s
          ++ map (fun fd => WriteFd fd (uint64 FIMNOTIFY_KILL) 8)
               (snd (kill_pure (processeventfd h) it count)))).
Proof.
  induction count as [|count IH]; intros it s h Hh.
  - cbn [kill_loop kill_pure fst snd map]; unfold ret.
    rewrite app_nil_r, (update_at_same _ _ _ _ Hh)
      by apply set_processeventfd_same.
    now rewrite with_registry_same.
  - cbn [kill_loop kill_pure].
    rewrite bind_run; unfold get_watchers at 1 2; cbn [fst snd].
    rewrite Hh.
    destruct (nth_error (RF.elements (processeventfd h)) it) as [fd|] eqn:Efd.
    + rewrite bind_run, bind_run.
      set (s1 := snd (through watcher _ (snd (call _ s)))).
      assert (Hs1 : nth_error (watchers_ s1) watcher
                    = Some (set_processeventfd h
                              (eraseEventProcessfd (processeventfd h) fd))).
      { subst s1; unfold through, call, bind, get_watchers, put_watchers.
        cbn [fst snd watchers_].
        now apply (nth_error_update_at
                     (fun h => set_processeventfd h
                                 (eraseEventProcessfd (processeventfd h) fd))). }
      rewrite (IH (S it) s1 _ Hs1).
      cbn [processeventfd set_processeventfd fst snd map].
      f_equal; subst s1.
      unfold through, call, bind, get_watchers, put_watchers, with_registry.
      cbn [fst snd watchers_ mq_ trace eventfd_supply mq_open_supply].
      rewrite update_at_twice, <- app_assoc; reflexivity.
    + cbn [fst snd map]; unfold ret.
      rewrite app_nil_r, (update_at_same _ _ _ _ Hh)
        by apply set_processeventfd_same.
      now rewrite with_registry_same.
Qed.

Lemma firstn_app_ge {A} (a b : list A) n :
  (List.length a <= n)%nat ->
  firstn n (a ++ b) = a ++ firstn (n - List.length a) b.
Proof.
  intros H; rewrite firstn_app, firstn_all2 by assumption; reflexivity.
Qed.

Lemma last_In_cons (l : list Z) (x d : Z) : In (last (x :: l) d) (x :: l).
Proof.
  revert x; induction l as [|y l IH]; intros x; [now left|].
  right; apply (IH y).
Qed.

Lemma skipn_last (l2 rest : list Z) (x d : Z) :
  skipn (List.length l2) (x :: l2 ++ rest) = last (x :: l2) d :: rest.
Proof.
  revert x; induction l2 as [|y l2 IH]; intros x; [reflexivity|].
  cbn [List.length skipn app]; rewrite IH; reflexivity.
Qed.

(** The array after [erase] at the position behind [l1]: the slot that
    held the last element keeps its value. *)
Lemma erase_array_last (l1 l2 rest : list Z) (x : Z) :
  let a := l1 ++ x :: l2 ++ rest in
  let n := (List.length l1 + S (List.length l2))%nat in
  let p := List.length l1 in
  firstn p a ++ firstn (n - 1 - p) (skipn (S p) a) ++ skipn (n - 1) a
  = l1 ++ l2 ++ last (x :: l2) x :: rest.
Proof.
  intros a n p; subst a n p.
  rewrite firstn_app_exact, skipn_app_cons.
  replace (List.length l1 + S (List.length l2) - 1 - List.length l1)%nat
    with (List.length l2) by lia.
  rewrite firstn_app_exact; do 2 f_equal.
  replace (List.length l1 + S (List.length l2) - 1)%nat
    with (List.length l1 + List.length l2)%nat by lia.
  rewrite skipn_plus, skipn_app, skipn_all, Nat.sub_diag; cbn [app skipn].
  apply skipn_last.
Qed.

(** What [eraseEventProcessfd] keeps: the size of the array, and the
    values found in its first [n0] slots. *)
Lemma eraseEventProcessfd_keeps rf processfd n0 :
  RF.wf rf ->
  (RF.current_size rf <= n0)%nat ->
  let rf' := eraseEventProcessfd rf processfd in
  RF.wf rf'
  /\ (RF.current_size rf' <= RF.current_size rf)%nat
  /\ List.length (RF.elements rf') = List.length (RF.elements rf)
  /\ incl (firstn n0 (RF.elements rf')) (firstn n0 (RF.elements rf)).
Proof.
  intros Hwf Hn0; cbv zeta.
  destruct (in_dec Z.eq_dec processfd (RF.contents rf)) as [Hin|Hnin].
  2:{ unfold eraseEventProcessfd; rewrite erase_scan_absent by assumption.
      repeat split; auto; apply incl_refl. }
  destruct (first_occurrence _ _ Hin) as (l1 & l2 & Hc & Hn).
  unfold eraseEventProcessfd.
  rewrite (erase_scan_found rf processfd l1 l2 Hwf Hc Hn) by lia.
  destruct (contents_erase rf l1 processfd l2 Hwf Hc) as [_ Hwf'].
  pose proof (contents_length rf Hwf) as Hlen.
  rewrite Hc, length_app in Hlen; cbn [List.length] in Hlen.
  pose proof (contents_elements rf) as He.
  rewrite Hc, <- app_assoc in He; cbn [app] in He.
  set (rest := skipn (RF.current_size rf) (RF.elements rf)) in *.
  assert (Harr : RF.elements (RF.erase rf (List.length l1))
                 = l1 ++ l2 ++ last (processfd :: l2) processfd :: rest).
  { unfold RF.erase; cbn [RF.elements].
    rewrite <- Hlen, He; apply erase_array_last. }
  split; [assumption|].
  split; [unfold RF.erase; cbn [RF.current_size]; lia|].
  split.
  - rewrite Harr, He, !length_app; cbn [List.length]; rewrite !length_app.
    cbn [List.length]; lia.
  - rewrite Harr, He.
    replace (l1 ++ processfd :: l2 ++ rest)
      with ((l1 ++ processfd :: l2) ++ rest)
      by (now rewrite <- app_assoc).
    replace (l1 ++ l2 ++ last (processfd :: l2) processfd :: rest)
      with ((l1 ++ l2 ++ [last (processfd :: l2) processfd]) ++ rest)
      by (now rewrite <- !app_assoc).
    rewrite !firstn_app_ge
      by (rewrite !length_app; cbn [List.length]; rewrite ?length_app;
          cbn [List.length]; lia).
    intros v Hv; rewrite !in_app_iff in Hv; rewrite !in_app_iff.
    destruct Hv as [[Hv|[Hv|Hv]]|Hv].
    + left; now left.
    + left; right; now right.
    + left; right; destruct Hv as [<-|[]]; apply last_In_cons.
    + right; revert Hv.
      replace (List.length (l1 ++ l2 ++ [last (processfd :: l2) processfd]))
        with (List.length (l1 ++ processfd :: l2)); [trivial|].
      rewrite !length_app; cbn [List.length]; lia.
Qed.

(** [kill_pure] on a list of [n0] descriptors, from slot [it] on. *)
Lemma kill_pure_spec init n0 count :
  forall rf it,
    RF.wf rf ->
    (RF.current_size rf <= n0)%nat ->
    (n0 <= List.length (RF.elements rf))%nat ->
    incl (firstn n0 (RF.elements rf)) init ->
    (it + count <= n0)%nat ->
    RF.wf (fst (kill_pure rf it count))
    /\ List.length (snd (kill_pure rf it count)) = count
    /\ incl (snd (kill_pure rf it count)) init
    /\ incl (RF.contents (fst (kill_pure rf it count))) init
    /\ (forall fd, hd_error (snd (kill_pure rf it count)) = Some fd ->
                   nth_error (RF.elements rf) it = Some fd).
Proof.
  induction count as [|count IH]; intros rf it Hwf Hsz Hn0 Hincl Hit.
  - cbn [kill_pure fst snd]; repeat split; auto.
    + intros v [].
    + intros v Hv; apply Hincl; unfold RF.contents in Hv.
      rewrite <- (firstn_skipn (RF.current_size rf)
                    (firstn n0 (RF.elements rf))).
      rewrite firstn_firstn, Nat.min_l by assumption.
      apply in_or_app; now left.
    + discriminate.
  - cbn [kill_pure].
    destruct (nth_error (RF.elements rf) it) as [fd|] eqn:Efd.
    2:{ apply nth_error_None in Efd; lia. }
    destruct (eraseEventProcessfd_keeps rf fd n0 Hwf Hsz)
      as (Hwf' & Hsz' & Hlen' & Hincl').
    destruct (IH (eraseEventProcessfd rf fd) (S it) Hwf') as (H1 & H2 & H3 & H4 & _);
      try lia.
    { intros v Hv; apply Hincl, Hincl', Hv. }
    cbn [fst snd List.length]; repeat split; auto.
    intros v [<-|Hv]; [|now apply H3].
    apply Hincl.
    rewrite <- (firstn_skipn n0 (RF.elements rf)) in Efd.
    rewrite nth_error_app1 in Efd by (rewrite length_firstn; lia).
    eapply nth_error_In; eassumption.
Qed.

Lemma sendKillSignalToWatcher_pure FIMNOTIFY_KILL watcher s h :
  nth_error (watchers_ s) watcher = Some h ->
  let r := kill_pure (processeventfd h) 0
             (RF.current_size (processeventfd h)) in
  sendKillSignalToWatcher FIMNOTIFY_KILL watcher s
  = (tt,
     with_registry s
       (update_at watcher (fun _ => set_processeventfd h (fst r)) (watchers_ s))
       (trace s ++ map (fun fd => WriteFd fd (uint64 FIMNOTIFY_KILL) 8) (snd r))).
Proof.
  intros Hh; cbv zeta; unfold sendKillSignalToWatcher.
  rewrite bind_run; unfold get_watchers at 1 2; cbn [fst snd].
  rewrite Hh; now apply kill_loop_pure.
Qed.

(** What [kill_pure] does on a whole list. *)
Lemma kill_pure_whole rf :
  RF.wf rf ->
  let r := kill_pure rf 0 (RF.current_size rf) in
  RF.wf (fst r)
  /\ List.length (snd r) = List.length (RF.contents rf)
  /\ incl (snd r) (RF.contents rf)
  /\ incl (RF.contents (fst r)) (RF.contents rf)
  /\ hd_error (snd r) = hd_error (RF.contents rf).
Proof.
  intros Hwf; cbv zeta.
  set (n := RF.current_size rf).
  destruct (kill_pure_spec (RF.contents rf) n n rf 0 Hwf)
    as (H1 & H2 & H3 & H4 & H5); try (subst n; lia); try exact Hwf.
  { apply incl_refl. }
  rewrite (contents_length rf Hwf); repeat split; auto.
  destruct (snd (kill_pure rf 0 n)) as [|fd fds] eqn:E.
  - cbn [List.length] in H2; unfold RF.contents; fold n; now rewrite <- H2.
  - specialize (H5 fd eq_refl).
    unfold RF.contents; fold n.
    cbn [List.length] in H2; rewrite <- H2.
    destruct (RF.elements rf); [discriminate|].
    now cbn in H5 |- *.
Qed.

(** X10. [sendKillSignalToWatcher] on a stored watcher makes as many
    writes of the kill value, eight bytes each, as the watcher lists
    descriptors; every write goes to a descriptor of that list, the
    first one to its first descriptor.  Apart from these writes it
    changes the descriptor list of that one watcher only, which ends as
    a part of what it was: the other watchers, the queue handle and the
    rest of the service stay as they are. *)
Theorem sendKillSignalToWatcher_writes
    (FIMNOTIFY_KILL : Z) (watcher : nat) (s : Fimd) (h : FimdHandle) :
  nth_error (watchers_ s) watcher = Some h ->
  RF.wf (processeventfd h) ->
  exists fds rf',
    sendKillSignalToWatcher FIMNOTIFY_KILL watcher s
    = (tt,
       with_registry s
         (update_at watcher (fun _ => set_processeventfd h rf') (watchers_ s))
         (trace s ++ map (fun fd => WriteFd fd (uint64 FIMNOTIFY_KILL) 8) fds))
    /\ List.length fds = List.length (RF.contents (processeventfd h))
    /\ incl fds (RF.contents (processeventfd h))
    /\ hd_error fds = hd_error (RF.contents (processeventfd h))
    /\ incl (RF.contents rf') (RF.contents (processeventfd h))
    /\ RF.wf rf'.
Proof.
  intros Hh Hwf.
  exists (snd (kill_pure (processeventfd h) 0
                 (RF.current_size (processeventfd h)))),
         (fst (kill_pure (processeventfd h) 0
                 (RF.current_size (processeventfd h)))).
  destruct (kill_pure_whole (processeventfd h) Hwf) as (H1 & H2 & H3 & H4 & H5).
  split; [now apply sendKillSignalToWatcher_pure|].
  repeat split; assumption.
Qed.

Lemma sendKillSignalToWatcher_writes_witness :
  exists fds,
    trace (snd (sendKillSignalToWatcher 1 0 (running [5; 6; 7])))
    = map (fun fd => WriteFd fd (uint64 1) 8) fds
    /\ List.length fds = 3%nat
    /\ incl fds [5; 6; 7].
Proof.
  destruct (sendKillSignalToWatcher_writes 1 0 (running [5; 6; 7])
              (nodeA_watcher [5; 6; 7]))
    as (fds & rf' & H1 & H2 & H3 & _).
  - reflexivity.
  - unfold RF.wf; simpl; lia.
  - exists fds; rewrite H1; repeat split; assumption.
Defined.

(** ** [DestroyWatch] *)

Lemma find_if_bound {A} (p : A -> bool) (l : list A) i :
  find_if p l = Some i -> exists a, nth_error l i = Some a /\ In a l.
Proof.
  intros H; destruct (find_if_some _ _ _ H) as (a & Ha & _).
  exists a; split; [assumption|]; eapply nth_error_In; eassumption.
Qed.

Lemma call_run c s :
  call c s = (tt, with_registry s (watchers_ s) (trace s ++ [c])).
Proof. reflexivity. Qed.

Lemma findFimdWatcherByPids_run indet nodeName pids s :
  findFimdWatcherByPids indet nodeName pids s
  = (find_watcher indet (watchers_ s) nodeName pids, s).
Proof. reflexivity. Qed.

Lemma sendExitMessageToMessageQueue_run MQ_EXIT_MESSAGE w s h :
  nth_error (watchers_ s) w = Some h ->
  sendExitMessageToMessageQueue MQ_EXIT_MESSAGE w s
  = (tt,
     with_registry s (watchers_ s)
       (trace s ++ [MqSend (mqfd h) MQ_EXIT_MESSAGE (strlen MQ_EXIT_MESSAGE) 1])).
Proof.
  intros Hh; unfold sendExitMessageToMessageQueue.
  rewrite bind_run; unfold get_watchers; cbn [fst snd]; now rewrite Hh.
Qed.

(** [DestroyWatch] with at least one resolved pid, by what the lookup
    finds. *)
Lemma DestroyWatch_run MQ_EXIT_MESSAGE FIMNOTIFY_KILL getPidForContainer
    cleanContainerId indet request st :
  let pids := getPidsFromRequest getPidForContainer cleanContainerId request in
  let stopping := LogInfo "Stopping inotify watcher..." in
  pids <> [] ->
  match find_watcher indet (watchers_ st) (cfg_nodename request) pids with
  | None =>
      DestroyWatch MQ_EXIT_MESSAGE FIMNOTIFY_KILL getPidForContainer
        cleanContainerId indet request st
      = (OK, with_registry st (watchers_ st) (trace st ++ [stopping]))
  | Some w =>
      forall h,
        nth_error (watchers_ st) w = Some h ->
        DestroyWatch MQ_EXIT_MESSAGE FIMNOTIFY_KILL getPidForContainer
          cleanContainerId indet request st
        = (OK,
           with_registry st (remove_at w (watchers_ st))
             (trace st
              ++ [stopping;
                  MqSend (mqfd h) MQ_EXIT_MESSAGE (strlen MQ_EXIT_MESSAGE) 1]
              ++ map (fun fd => WriteFd fd (uint64 FIMNOTIFY_KILL) 8)
                   (snd (kill_pure (processeventfd h) 0
                           (RF.current_size (processeventfd h))))))
  end.
Proof.
  intros pids stopping Hne.
  unfold DestroyWatch; fold pids.
  assert (Hlen : (List.length pids =? 0)%nat = false)
    by (destruct pids; [congruence|reflexivity]).
  rewrite Hlen, bind_run, call_run; fold stopping; cbn [fst snd].
  rewrite bind_run, findFimdWatcherByPids_run; cbn [fst snd].
  change (watchers_ (with_registry st (watchers_ st) (trace st ++ [stopping])))
    with (watchers_ st).
  destruct (find_watcher indet (watchers_ st) (cfg_nodename request) pids)
    as [w|] eqn:Efind.
  - intros h Hh.
    set (s1 := with_registry st (watchers_ st) (trace st ++ [stopping])).
    set (s2 := with_registry s1 (watchers_ s1)
                 (trace s1 ++ [MqSend (mqfd h) MQ_EXIT_MESSAGE
                                 (strlen MQ_EXIT_MESSAGE) 1])).
    pose proof (sendKillSignalToWatcher_pure FIMNOTIFY_KILL w s2 h Hh) as Hrun.
    cbv zeta in Hrun.
    set (r := kill_pure (processeventfd h) 0 _) in *.
    assert (Hseq : bind (sendExitMessageToMessageQueue MQ_EXIT_MESSAGE w)
                     (fun _ => sendKillSignalToWatcher FIMNOTIFY_KILL w) s1
                   = sendKillSignalToWatcher FIMNOTIFY_KILL w s2).
    { rewrite bind_run.
      now rewrite (sendExitMessageToMessageQueue_run MQ_EXIT_MESSAGE w s1 h Hh). }
    rewrite bind_run, bind_run, Hseq, Hrun.
    repeat (rewrite bind_run; cbv beta).
    subst s2 s1; unfold get_watchers, put_watchers, ret, with_registry.
    cbn [fst snd watchers_ mq_ trace eventfd_supply mq_open_supply].
    now rewrite remove_at_update_at, <- !app_assoc.
  - repeat (rewrite bind_run; cbv beta).
    reflexivity.
Qed.

(** X11. A [DestroyWatch] with at least one resolved pid returns [OK]
    whatever the lookup finds.  When the lookup finds nothing, the
    registry stays as it is and nothing but the log line leaves the
    handler.  When it finds a watcher, the sentinel is sent with
    priority 1 to the queue handle stored in that watcher, before the
    wake-up writes, one write per listed descriptor; that watcher, and
    no other, is then taken out of the registry.  Neither case touches
    the queue handle of the service. *)
Theorem DestroyWatch_removes
    (MQ_EXIT_MESSAGE : string) (FIMNOTIFY_KILL : Z)
    (getPidForContainer : string -> Z) (cleanContainerId : string -> string)
    (indet : bool) (request : FimdConfig) (st : Fimd) :
  let pids := getPidsFromRequest getPidForContainer cleanContainerId request in
  let stopping := LogInfo "Stopping inotify watcher..." in
  pids <> [] ->
  (forall h, In h (watchers_ st) -> RF.wf (processeventfd h)) ->
  match find_watcher indet (watchers_ st) (cfg_nodename request) pids with
  | None =>
      DestroyWatch MQ_EXIT_MESSAGE FIMNOTIFY_KILL getPidForContainer
        cleanContainerId indet request st
      = (OK, with_registry st (watchers_ st) (trace st ++ [stopping]))
  | Some w =>
      exists h fds,
        nth_error (watchers_ st) w = Some h
        /\ DestroyWatch MQ_EXIT_MESSAGE FIMNOTIFY_KILL getPidForContainer
             cleanContainerId indet request st
           = (OK,
              with_registry st (remove_at w (watchers_ st))
                (trace st
                 ++ [stopping;
                     MqSend (mqfd h) MQ_EXIT_MESSAGE (strlen MQ_EXIT_MESSAGE) 1]
                 ++ map (fun fd => WriteFd fd (uint64 FIMNOTIFY_KILL) 8) fds))
        /\ List.length fds = List.length (RF.contents (processeventfd h))
        /\ incl fds (RF.contents (processeventfd h))
  end.
Proof.
  intros pids stopping Hne Hwf.
  pose proof (DestroyWatch_run MQ_EXIT_MESSAGE FIMNOTIFY_KILL
                getPidForContainer cleanContainerId indet request st Hne)
    as Hrun.
  fold pids in Hrun; cbv zeta in Hrun; fold stopping in Hrun.
  destruct (find_watcher indet (watchers_ st) (cfg_nodename request) pids)
    as [w|] eqn:Efind; [|exact Hrun].
  destruct (find_if_bound _ _ _ Efind) as (h & Hh & Hin).
  destruct (kill_pure_whole (processeventfd h) (Hwf h Hin))
    as (_ & Hl & Hi & _).
  exists h, (snd (kill_pure (processeventfd h) 0
                    (RF.current_size (processeventfd h)))).
  split; [assumption|].
  split; [now apply Hrun|].
  split; assumption.
Qed.

Lemma DestroyWatch_removes_witness :
  exists h fds,
    DestroyWatch "exit" 1 pid_for strip_scheme false
      (request_for ["c1"%string]) (running [5; 6])
    = (OK,
       with_registry (running [5; 6]) []
         ([LogInfo "Stopping inotify watcher..."; MqSend (mqfd h) "exit" 4 1]
          ++ map (fun fd => WriteFd fd (uint64 1) 8) fds))
    /\ List.length fds = 2%nat.
Proof.
  destruct (DestroyWatch_removes "exit" 1 pid_for strip_scheme false
              (request_for ["c1"%string]) (running [5; 6]))
    as (h & fds & Hh & H & Hl & _).
  - vm_compute; discriminate.
  - intros h [<-|[]]; unfold RF.wf; simpl; lia.
  - injection Hh as <-; exists (nodeA_watcher [5; 6]), fds.
    split; [exact H|exact Hl].
Defined.

(** ** [CreateWatch], call by call *)

Lemma spawned_nothing s : spawned s [] 0 = s.
Proof. destruct s; unfold spawned; cbn; now rewrite app_nil_r. Qed.

Lemma spawned_twice s c1 k1 c2 k2 :
  spawned (spawned s c1 k1) c2 k2 = spawned s (c1 ++ c2) (k1 + k2).
Proof.
  unfold spawned; cbn; now rewrite app_assoc, skipn_plus.
Qed.

Lemma extended_nothing response :
  extended response [] (processeventfd response) = response.
Proof. destruct response; unfold extended; cbn; now rewrite app_nil_r. Qed.

Lemma createInotifyWatcher_full sub p fds s :
  createInotifyWatcher sub p (getPathArrayFromSubject p sub)
    (getEventMaskFromSubject sub) fds s
  = (add_allocated fds (firstn 1 (eventfd_supply s)),
     spawned s (worker_calls p sub (mq_ s) (hd EOF (eventfd_supply s))) 1).
Proof.
  destruct s as [ws mq tr supply mqs].
  unfold createInotifyWatcher, eventfd, spawned, worker_calls, bind, ret,
    get_mq, call.
  cbn [fst snd watchers_ mq_ trace eventfd_supply mq_open_supply].
  destruct supply as [|r supply];
    cbn [hd tl firstn skipn add_allocated fold_left].
  - reflexivity.
  - destruct (r =? EOF);
      cbn [fst snd watchers_ mq_ trace eventfd_supply mq_open_supply];
      rewrite <- ?app_assoc; reflexivity.
Qed.

Lemma add_allocated_app rf a b :
  add_allocated rf (a ++ b) = add_allocated (add_allocated rf a) b.
Proof. unfold add_allocated; apply fold_left_app. Qed.

Lemma for_each_subjects_full p subs :
  forall response s,
    for_each subs (per_subject p) response s
    = (set_processeventfd response
         (add_allocated (processeventfd response)
            (firstn (List.length subs) (eventfd_supply s))),
       spawned s (spawn_calls (map (pair p) subs) (mq_ s) (eventfd_supply s))
         (List.length subs)).
Proof.
  induction subs as [|sub subs IH]; intros response s.
  - cbn; unfold ret.
    now rewrite set_processeventfd_same, spawned_nothing.
  - rewrite for_each_cons, per_subject_run, createInotifyWatcher_full.
    cbv zeta; cbn [fst snd]; rewrite IH, spawned_twice.
    cbn [processeventfd set_processeventfd map spawn_calls List.length
         spawned mq_ eventfd_supply].
    change (S (List.length subs)) with (1 + List.length subs)%nat.
    rewrite firstn_plus, add_allocated_app.
    change (skipn 1 (eventfd_supply s)) with (tl (eventfd_supply s)).
    reflexivity.
Qed.

Lemma skipn_S_tl {A} n (l : list A) : skipn (S n) l = skipn n (tl l).
Proof. destruct l; [now destruct n|reflexivity]. Qed.

Lemma spawn_calls_app a b mq supply :
  spawn_calls (a ++ b) mq supply
  = spawn_calls a mq supply ++ spawn_calls b mq (skipn (List.length a) supply).
Proof.
  revert supply; induction a as [|[p sub] a IH]; intros supply; [reflexivity|].
  cbn [app spawn_calls List.length]; rewrite IH, <- app_assoc.
  now rewrite skipn_S_tl.
Qed.

Lemma for_each_pids_full subjects pids :
  forall response s,
    let n := (List.length pids * List.length subjects)%nat in
    for_each pids (per_pid subjects) response s
    = (extended response pids
         (add_allocated (processeventfd response)
            (firstn n (eventfd_supply s))),
       spawned s
         (spawn_calls (list_prod pids subjects) (mq_ s) (eventfd_supply s)) n).
Proof.
  induction pids as [|p pids IH]; intros response s.
  - cbn; unfold ret; now rewrite extended_nothing, spawned_nothing.
  - cbv zeta in IH |- *.
    rewrite for_each_cons, per_pid_run, for_each_subjects_full.
    cbv zeta; cbn [fst snd]; rewrite IH, spawned_twice.
    cbn [list_prod List.length Nat.mul spawned mq_ eventfd_supply].
    rewrite spawn_calls_app, length_map, firstn_plus, add_allocated_app.
    unfold extended, add_pid;
      cbn [nodename podname pid mqfd processeventfd set_processeventfd].
    now rewrite <- app_assoc.
Qed.

Lemma contents_add_allocated answers :
  forall rf,
    RF.wf rf ->
    RF.contents (add_allocated rf answers)
    = RF.contents rf ++ filter allocation_ok answers
    /\ RF.wf (add_allocated rf answers).
Proof.
  induction answers as [|r answers IH]; intros rf Hwf.
  - cbn; rewrite app_nil_r; auto.
  - cbn [add_allocated fold_left filter]; unfold allocation_ok at 1.
    destruct (r =? EOF); cbn [negb].
    + now apply IH.
    + destruct (contents_Add rf r Hwf) as [Hc Hwf'].
      destruct (IH _ Hwf') as [Hc' Hwf''].
      unfold add_allocated in Hc', Hwf''.
      now rewrite Hc', Hc, <- app_assoc.
Qed.

Lemma createMessageQueue_run MQ_QUEUE_NAME MQ_MAX_SIZE logFormat nodeName
    podName recreate s :
  let mq := hd EOF (mq_open_supply s) in
  createMessageQueue MQ_QUEUE_NAME MQ_MAX_SIZE logFormat nodeName podName
    recreate s
  = (mq,
     {| watchers_ := watchers_ s; mq_ := mq;
        trace := trace s
                 ++ (if recreate
                     then [MqClose (mq_ s); MqUnlink MQ_QUEUE_NAME] else [])
                 ++ queue_calls MQ_QUEUE_NAME MQ_MAX_SIZE logFormat nodeName
                      podName mq;
        eventfd_supply := eventfd_supply s;
        mq_open_supply := tl (mq_open_supply s) |}).
Proof.
  cbv zeta; unfold createMessageQueue, queue_calls, mq_open, put_mq, get_mq,
    call, bind, ret.
  destruct recreate;
    cbn [fst snd watchers_ mq_ trace eventfd_supply mq_open_supply];
    destruct (Z.eqb_spec (hd EOF (mq_open_supply s)) EOF) as [E|E];
    cbn [fst snd watchers_ mq_ trace eventfd_supply mq_open_supply];
    try rewrite E; rewrite <- ?app_assoc; reflexivity.
Qed.

Lemma for_each_through w fds :
  forall s h0,
    nth_error (watchers_ s) w = Some h0 ->
    for_each fds
      (fun processfd (_ : unit) =>
         through w (fun h => set_processeventfd h
                               (RF.Add (processeventfd h) processfd)))
      tt s
    = (tt,
       with_registry s
         (update_at w
            (fun _ => set_processeventfd h0
                        (fold_left RF.Add fds (processeventfd h0)))
            (watchers_ s))
         (trace s)).
Proof.
  induction fds as [|fd fds IH]; intros s h0 Hh.
  - cbn [for_each fold_left]; unfold ret.
    rewrite (update_at_same _ _ _ _ Hh) by apply set_processeventfd_same.
    now rewrite with_registry_same.
  - rewrite for_each_cons.
    set (s1 := snd (through w _ s)).
    assert (Hs1 : s1 = with_registry s
                         (update_at w
                            (fun h => set_processeventfd h
                                        (RF.Add (processeventfd h) fd))
                            (watchers_ s)) (trace s)) by reflexivity.
    assert (Hh1 : nth_error (watchers_ s1) w
                  = Some (set_processeventfd h0
                            (RF.Add (processeventfd h0) fd))).
    { rewrite Hs1; cbn [with_registry watchers_].
      now apply (nth_error_update_at
                   (fun h => set_processeventfd h
                               (RF.Add (processeventfd h) fd))). }
    change (fst (through w _ s)) with tt.
    rewrite (IH s1 _ Hh1), Hs1.
    unfold with_registry;
      cbn [watchers_ mq_ trace eventfd_supply mq_open_supply fold_left
           processeventfd set_processeventfd].
    now rewrite update_at_twice.
Qed.

Section CreateWatchRuns.

Variable MQ_QUEUE_NAME : string.
Variable MQ_MAX_SIZE : Z.
Variable FIMNOTIFY_KILL : Z.
Variable getPidForContainer : string -> Z.
Variable cleanContainerId : string -> string.
Variable indet : bool.
Variable request : FimdConfig.
Variable st : Fimd.

Local Abbreviation pids :=
  (getPidsFromRequest getPidForContainer cleanContainerId request).
Local Abbreviation new_mq := (hd EOF (mq_open_supply st)).
Local Abbreviation pairs := (list_prod pids (subject request)).
Local Abbreviation n_pairs :=
  (List.length pids * List.length (subject request))%nat.
Local Abbreviation Create :=
  (CreateWatch MQ_QUEUE_NAME MQ_MAX_SIZE FIMNOTIFY_KILL getPidForContainer
     cleanContainerId indet request st).
Local Abbreviation the_response :=
  {| nodename := c_str (cfg_nodename request);
     podname := c_str (cfg_podname request);
     pid := pids; mqfd := new_mq;
     processeventfd :=
       add_allocated RF.empty (firstn n_pairs (eventfd_supply st)) |}.
Local Abbreviation the_queue_calls :=
  (queue_calls MQ_QUEUE_NAME MQ_MAX_SIZE (logformat request)
     (cfg_nodename request) (cfg_podname request) new_mq).

(** [CreateWatch] when the lookup finds nothing. *)
Lemma CreateWatch_miss_run :
  pids <> [] ->
  find_watcher indet (watchers_ st) (cfg_nodename request) pids = None ->
  Create
  = (OK, the_response,
     {| watchers_ := watchers_ st ++ [copy_handle the_response];
        mq_ := new_mq;
        trace := trace st
                 ++ LogInfo "Starting inotify watcher..."
                    :: the_queue_calls
                 ++ spawn_calls pairs new_mq (eventfd_supply st);
        eventfd_supply := skipn n_pairs (eventfd_supply st);
        mq_open_supply := tl (mq_open_supply st) |}).
Proof.
  intros Hne Hfind; unfold CreateWatch.
  assert (Hlen : (List.length pids =? 0)%nat = false)
    by (destruct pids; [congruence|reflexivity]).
  rewrite Hlen, bind_run, findFimdWatcherByPids_run, Hfind; cbn [fst snd].
  rewrite bind_run, call_run; cbn [fst snd].
  rewrite bind_run, createMessageQueue_run; cbv zeta; cbn [fst snd].
  rewrite bind_run, for_each_pids_full; cbv zeta; cbn [fst snd].
  repeat (rewrite bind_run; cbv beta).
  unfold get_watchers, put_watchers, ret, spawned, with_registry, extended,
    set_mqfd, set_podname, set_nodename, default_handle.
  cbn [fst snd watchers_ mq_ trace eventfd_supply mq_open_supply
       nodename podname pid mqfd processeventfd app].
  now rewrite <- !app_assoc.
Qed.

(** [CreateWatch] when the lookup finds the watcher at position [w]. *)
Lemma CreateWatch_hit_run w h :
  pids <> [] ->
  find_watcher indet (watchers_ st) (cfg_nodename request) pids = Some w ->
  nth_error (watchers_ st) w = Some h ->
  let k := kill_pure (processeventfd h) 0
             (RF.current_size (processeventfd h)) in
  Create
  = (OK, the_response,
     {| watchers_ :=
          update_at w
            (fun _ => set_processeventfd h
                        (fold_left RF.Add
                           (RF.contents (processeventfd the_response))
                           (RF.Clear (fst k))))
            (watchers_ st);
        mq_ := new_mq;
        trace := trace st
                 ++ LogInfo "Updating inotify watcher..."
                    :: map (fun fd => WriteFd fd (uint64 FIMNOTIFY_KILL) 8)
                         (snd k)
                 ++ [MqClose (mq_ st); MqUnlink MQ_QUEUE_NAME]
                 ++ the_queue_calls
                 ++ spawn_calls pairs new_mq (eventfd_supply st);
        eventfd_supply := skipn n_pairs (eventfd_supply st);
        mq_open_supply := tl (mq_open_supply st) |}).
Proof.
  intros Hne Hfind Hh k; unfold CreateWatch.
  assert (Hlen : (List.length pids =? 0)%nat = false)
    by (destruct pids; [congruence|reflexivity]).
  rewrite Hlen, bind_run, findFimdWatcherByPids_run, Hfind; cbn [fst snd].
  set (s1 := with_registry st (watchers_ st)
               (trace st ++ [LogInfo "Updating inotify watcher..."])).
  set (s2 := with_registry s1
               (update_at w (fun _ => set_processeventfd h (fst k))
                  (watchers_ s1))
               (trace s1
                ++ map (fun fd => WriteFd fd (uint64 FIMNOTIFY_KILL) 8)
                     (snd k))).
  set (s3 := with_registry s2
               (update_at w
                  (fun h => set_processeventfd h (RF.Clear (processeventfd h)))
                  (watchers_ s2))
               (trace s2)).
  assert (Hseq :
            bind (call (LogInfo "Updating inotify watcher..."))
              (fun _ =>
                 bind (sendKillSignalToWatcher FIMNOTIFY_KILL w)
                   (fun _ =>
                      through w
                        (fun h => set_processeventfd h
                                    (RF.Clear (processeventfd h))))) st
            = (tt, s3)).
  { rewrite bind_run, call_run; cbn [fst snd]; fold s1.
    rewrite bind_run.
    rewrite (sendKillSignalToWatcher_pure FIMNOTIFY_KILL w s1 h Hh).
    reflexivity. }
  assert (Hh3 : nth_error (watchers_ s3) w
                = Some (set_processeventfd h (RF.Clear (fst k)))).
  { subst s3 s2 s1; cbn [with_registry watchers_].
    rewrite update_at_twice.
    now rewrite (nth_error_update_at _ _ _ _ Hh). }
  rewrite bind_run, Hseq; cbn [fst snd].
  rewrite bind_run, createMessageQueue_run; cbv zeta; cbn [fst snd].
  rewrite bind_run, for_each_pids_full; cbv zeta; cbn [fst snd].
  rewrite bind_run.
  match goal with
  | |- context [for_each ?fds ?body tt ?s] =>
      rewrite (for_each_through w fds s _ Hh3)
  end.
  unfold ret, spawned, with_registry, extended,
    set_mqfd, set_podname, set_nodename, default_handle.
  subst s3 s2 s1; unfold with_registry.
  cbn [fst snd watchers_ mq_ trace eventfd_supply mq_open_supply
       nodename podname pid mqfd processeventfd set_processeventfd app].
  rewrite !update_at_twice, <- !app_assoc.
  reflexivity.
Qed.

End CreateWatchRuns.

(** ** What [CreateWatch] returns and starts *)

Lemma event_mask_bounds subject :
  0 <= uint32 (getEventMaskFromSubject subject) <= IN_ALL_EVENTS.
Proof.
  rewrite getEventMaskFromSubject_fold.
  pose proof (fold_lor_range (event subject)) as H.
  unfold uint32; rewrite Z.mod_small by lia.
  change IN_ALL_EVENTS with 4095; lia.
Qed.

Lemma worker_fds_app a b : worker_fds (a ++ b) = worker_fds a ++ worker_fds b.
Proof. apply flat_map_app. Qed.

Lemma observer_fds_app a b :
  observer_fds (a ++ b) = observer_fds a ++ observer_fds b.
Proof. apply flat_map_app. Qed.

Lemma queue_threads_app a b :
  queue_threads (a ++ b) = queue_threads a ++ queue_threads b.
Proof. apply filter_app. Qed.

Lemma writes_start_nothing value fds :
  let writes := map (fun fd => WriteFd fd value 8) fds in
  worker_fds writes = [] /\ observer_fds writes = []
  /\ queue_threads writes = [] /\ forall mq, Forall (worker_call_ok mq) writes.
Proof.
  induction fds as [|fd fds (H1 & H2 & H3 & H4)]; cbn; repeat split; auto.
  intros mq; constructor; [exact I|apply H4].
Qed.

Lemma queue_calls_start NAME MAX lf node pod mq :
  let calls := queue_calls NAME MAX lf node pod mq in
  worker_fds calls = [] /\ observer_fds calls = []
  /\ queue_threads calls
     = (if mq =? EOF then [] else [QueueThread lf node pod mq])
  /\ forall mq', Forall (worker_call_ok mq') calls.
Proof.
  unfold queue_calls; destruct (mq =? EOF); cbn; repeat split; auto;
    intros; repeat constructor.
Qed.

(** The threads that the calls of [createInotifyWatcher] start. *)
Lemma spawn_calls_start mq pairs :
  forall supply,
    let calls := spawn_calls pairs mq supply in
    let fds := filter allocation_ok (firstn (List.length pairs) supply) in
    worker_fds calls = fds /\ observer_fds calls = fds
    /\ queue_threads calls = [] /\ Forall (worker_call_ok mq) calls.
Proof.
  induction pairs as [|[p sub] pairs IH]; intros supply; cbv zeta.
  - cbn; auto.
  - destruct (IH (tl supply)) as (H1 & H2 & H3 & H4).
    cbn [spawn_calls List.length].
    rewrite worker_fds_app, observer_fds_app, queue_threads_app, Forall_app.
    rewrite H1, H2, H3.
    assert (Hf : filter allocation_ok (firstn (S (List.length pairs)) supply)
                 = (if hd EOF supply =? EOF then [] else [hd EOF supply])
                   ++ filter allocation_ok
                        (firstn (List.length pairs) (tl supply))).
    { destruct supply as [|r supply]; cbn [firstn filter hd tl].
      - now rewrite firstn_nil.
      - unfold allocation_ok at 1; now destruct (r =? EOF). }
    rewrite Hf; unfold worker_calls.
    destruct (Z.eqb_spec (hd EOF supply) EOF) as [E|E]; cbn;
      repeat split; auto; repeat constructor; auto.
    + rewrite getPathArrayFromSubject_map; symmetry; apply length_map.
    + apply event_mask_bounds.
    + apply event_mask_bounds.
Qed.

Section CreateWatchProperties.

Variable MQ_QUEUE_NAME : string.
Variable MQ_MAX_SIZE : Z.
Variable FIMNOTIFY_KILL : Z.
Variable getPidForContainer : string -> Z.
Variable cleanContainerId : string -> string.
Variable indet : bool.

Local Abbreviation pids_of :=
  (getPidsFromRequest getPidForContainer cleanContainerId).
Local Abbreviation Create :=
  (CreateWatch MQ_QUEUE_NAME MQ_MAX_SIZE FIMNOTIFY_KILL getPidForContainer
     cleanContainerId indet).

(** X12. A [CreateWatch] with at least one resolved pid returns [OK]
    whether it starts a watcher or updates one.  Its response carries
    the node and pod names of the request, the resolved pids in their
    order, what [mq_open] answered as queue handle ([EOF] when it
    failed), and as descriptors the answers of the [eventfd] calls, one
    call per (pid, subject) pair, that were not [EOF], in the order of
    the calls.  The service's queue handle is that same answer of
    [mq_open]. *)
Theorem CreateWatch_response (request : FimdConfig) (st : Fimd) :
  let pids := pids_of request in
  let n := (List.length pids * List.length (subject request))%nat in
  pids <> [] ->
  exists response st',
    Create request st = (OK, response, st')
    /\ nodename response = c_str (cfg_nodename request)
    /\ podname response = c_str (cfg_podname request)
    /\ pid response = pids
    /\ mqfd response = hd EOF (mq_open_supply st)
    /\ RF.contents (processeventfd response)
       = filter allocation_ok (firstn n (eventfd_supply st))
    /\ mq_ st' = hd EOF (mq_open_supply st)
    /\ eventfd_supply st' = skipn n (eventfd_supply st)
    /\ mq_open_supply st' = tl (mq_open_supply st).
Proof.
  intros pids n Hne.
  destruct (contents_add_allocated (firstn n (eventfd_supply st)) RF.empty)
    as [Hc _]; [unfold RF.wf; simpl; lia|].
  destruct (find_watcher indet (watchers_ st) (cfg_nodename request) pids)
    as [w|] eqn:Efind.
  - destruct (find_if_bound _ _ _ Efind) as (h & Hh & _).
    eexists _, _; split.
    + apply (CreateWatch_hit_run MQ_QUEUE_NAME MQ_MAX_SIZE FIMNOTIFY_KILL
               getPidForContainer cleanContainerId indet request st w h
               Hne Efind Hh).
    + repeat split; exact Hc.
  - eexists _, _; split.
    + apply (CreateWatch_miss_run MQ_QUEUE_NAME MQ_MAX_SIZE FIMNOTIFY_KILL
               getPidForContainer cleanContainerId indet request st
               Hne Efind).
    + repeat split; exact Hc.
Qed.

(** X13. Whatever the lookup finds, the threads a [CreateWatch] starts
    are these: one worker and one observer for each descriptor of the
    response, in the order of the response, every worker on the new
    queue handle, with a mask within the twelve classes and with as
    many paths as the count it is given; and one sink, on the new queue
    handle and with the request's format and names, unless [mq_open]
    failed, in which case no sink is started while the workers are
    started all the same. *)
Theorem CreateWatch_threads (request : FimdConfig) (st : Fimd) :
  pids_of request <> [] ->
  exists calls,
    trace (snd (Create request st)) = trace st ++ calls
    /\ worker_fds calls
       = RF.contents (processeventfd (snd (fst (Create request st))))
    /\ observer_fds calls
       = RF.contents (processeventfd (snd (fst (Create request st))))
    /\ Forall (worker_call_ok (hd EOF (mq_open_supply st))) calls
    /\ queue_threads calls
       = (if hd EOF (mq_open_supply st) =? EOF then []
          else [QueueThread (logformat request) (cfg_nodename request)
                  (cfg_podname request) (hd EOF (mq_open_supply st))]).
Proof.
  intros Hne.
  set (pids := pids_of request) in *.
  set (n := (List.length pids * List.length (subject request))%nat).
  set (mq := hd EOF (mq_open_supply st)).
  destruct (contents_add_allocated (firstn n (eventfd_supply st)) RF.empty)
    as [Hc _]; [unfold RF.wf; simpl; lia|].
  cbn [RF.contents RF.empty firstn app] in Hc.
  destruct (spawn_calls_start mq (list_prod pids (subject request))
              (eventfd_supply st)) as (S1 & S2 & S3 & S4).
  rewrite length_prod in S1, S2; fold n in S1, S2.
  destruct (queue_calls_start MQ_QUEUE_NAME MQ_MAX_SIZE (logformat request)
              (cfg_nodename request) (cfg_podname request) mq)
    as (Q1 & Q2 & Q3 & Q4).
  destruct (find_watcher indet (watchers_ st) (cfg_nodename request) pids)
    as [w|] eqn:Efind.
  - destruct (find_if_bound _ _ _ Efind) as (h & Hh & _).
    rewrite (CreateWatch_hit_run MQ_QUEUE_NAME MQ_MAX_SIZE FIMNOTIFY_KILL
               getPidForContainer cleanContainerId indet request st w h
               Hne Efind Hh).
    cbn [fst snd trace processeventfd]; fold pids n mq.
    destruct (writes_start_nothing (uint64 FIMNOTIFY_KILL)
                (snd (kill_pure (processeventfd h) 0
                        (RF.current_size (processeventfd h)))))
      as (W1 & W2 & W3 & W4).
    eexists; split; [reflexivity|].
    change (LogInfo "Updating inotify watcher..." :: ?l)
      with ([LogInfo "Updating inotify watcher..."] ++ l).
    rewrite !worker_fds_app, !observer_fds_app, !queue_threads_app,
      !Forall_app.
    rewrite W1, W2, W3, Q1, Q2, Q3, S1, S2, S3, Hc, app_nil_r.
    repeat split; auto; repeat constructor.
  - rewrite (CreateWatch_miss_run MQ_QUEUE_NAME MQ_MAX_SIZE FIMNOTIFY_KILL
               getPidForContainer cleanContainerId indet request st
               Hne Efind).
    cbn [fst snd trace processeventfd]; fold pids n mq.
    eexists; split; [reflexivity|].
    change (LogInfo "Starting inotify watcher..." :: ?l)
      with ([LogInfo "Starting inotify watcher..."] ++ l).
    rewrite !worker_fds_app, !observer_fds_app, !queue_threads_app,
      !Forall_app.
    rewrite Q1, Q2, Q3, S1, S2, S3, Hc, app_nil_r.
    repeat split; auto; repeat constructor.
Qed.

End CreateWatchProperties.

Lemma CreateWatch_response_witness :
  exists response st',
    CreateWatch "/fimd" 1024 1 pid_for strip_scheme false
      (request_for ["c1"; "c9"; "c2"]%string) (idle [5; EOF; 6]) = (OK, response, st')
    /\ pid response = [42; 43]
    /\ RF.contents (processeventfd response) = [5].
Proof.
  destruct (CreateWatch_response "/fimd" 1024 1 pid_for strip_scheme false
              (request_for ["c1"; "c9"; "c2"]%string) (idle [5; EOF; 6]))
    as (response & st' & H & _ & _ & Hp & _ & Hc & _).
  - vm_compute; discriminate.
  - exists response, st'; repeat split; assumption.
Defined.

Lemma CreateWatch_threads_witness :
  exists calls,
    trace (snd (CreateWatch "/fimd" 1024 1 pid_for strip_scheme false
                  (request_for ["c1"%string]) (running [5; 6])))
    = calls
    /\ worker_fds calls = [6]
    /\ Forall (worker_call_ok 4) calls.
Proof.
  destruct (CreateWatch_threads "/fimd" 1024 1 pid_for strip_scheme false
              (request_for ["c1"%string]) (running [5; 6]))
    as (calls & H & Hw & _ & Hok & _).
  - vm_compute; discriminate.
  - exists calls; repeat split; assumption.
Defined.

(** ** [CreateWatch] when the lookup finds nothing *)

Lemma find_if_app_last {A} (p : A -> bool) (l : list A) a :
  find_if p l = None -> p a = true ->
  find_if p (l ++ [a]) = Some (List.length l).
Proof.
  induction l as [|b l IH]; cbn [find_if app List.length]; intros Hn Ha.
  - now rewrite Ha.
  - destruct (p b); [discriminate|].
    destruct (find_if p l); [discriminate|].
    now rewrite IH.
Qed.

Lemma remove_at_app_last {A} (l : list A) a :
  remove_at (List.length l) (l ++ [a]) = l.
Proof. induction l as [|b l IH]; cbn; [reflexivity|now rewrite IH]. Qed.

Lemma watcher_matches_own indet nodeName pids w :
  pids <> [] -> nodename w = nodeName -> pid w = pids ->
  watcher_matches indet nodeName pids w = true.
Proof.
  intros Hne Hn Hp; rewrite watcher_matches_last by assumption.
  rewrite Hn, Hp, String.eqb_refl; cbn [andb].
  apply existsb_exists; exists (last pids 0); split;
    [now apply last_In|apply Z.eqb_refl].
Qed.

Section CreateWatchMiss.

Variable MQ_QUEUE_NAME : string.
Variable MQ_MAX_SIZE : Z.
Variable MQ_EXIT_MESSAGE : string.
Variable FIMNOTIFY_KILL : Z.
Variable getPidForContainer : string -> Z.
Variable cleanContainerId : string -> string.
Variable indet : bool.

Local Abbreviation pids_of :=
  (getPidsFromRequest getPidForContainer cleanContainerId).
Local Abbreviation Create :=
  (CreateWatch MQ_QUEUE_NAME MQ_MAX_SIZE FIMNOTIFY_KILL getPidForContainer
     cleanContainerId indet).
Local Abbreviation Destroy :=
  (DestroyWatch MQ_EXIT_MESSAGE FIMNOTIFY_KILL getPidForContainer
     cleanContainerId indet).

(** X14. When the lookup finds nothing, [CreateWatch] leaves every
    stored watcher as it is and appends a copy of its response.  That
    new watcher covers the request, so the number of stored watchers
    that cover it goes up by one: where a stored watcher shared a pid
    with the request and the lookup passed it over, two watchers on the
    node now hold that pid. *)
Theorem CreateWatch_miss_appends (request : FimdConfig) (st : Fimd) :
  let pids := pids_of request in
  let node := cfg_nodename request in
  pids <> [] ->
  nul_free node = true ->
  fst (findFimdWatcherByPids indet node pids st) = None ->
  exists response st',
    Create request st = (OK, response, st')
    /\ watchers_ st' = watchers_ st ++ [copy_handle response]
    /\ covers node pids (copy_handle response) = true
    /\ List.length (filter (covers node pids) (watchers_ st'))
       = S (List.length (filter (covers node pids) (watchers_ st))).
Proof.
  intros pids node Hne Hnul Hfind.
  rewrite findFimdWatcherByPids_run in Hfind; cbn [fst] in Hfind.
  eexists _, _; split.
  - apply (CreateWatch_miss_run MQ_QUEUE_NAME MQ_MAX_SIZE FIMNOTIFY_KILL
             getPidForContainer cleanContainerId indet request st Hne Hfind).
  - cbn [watchers_]; split; [reflexivity|].
    match goal with
    | |- covers _ _ ?w = true /\ _ =>
        assert (Hcov : covers node pids w = true)
    end.
    { apply covers_self; [assumption| |reflexivity].
      cbn [copy_handle set_processeventfd nodename].
      now apply c_str_nul_free. }
    split; [exact Hcov|].
    rewrite filter_app, length_app; cbn [filter]; rewrite Hcov.
    cbn [List.length]; lia.
Qed.

(** X15. A [CreateWatch] for which the lookup finds nothing, followed
    by a [DestroyWatch] of the same request, puts the registry back as
    it was: the lookup of the second handler finds the watcher the
    first one appended, and that watcher alone is removed. *)
Theorem CreateWatch_then_DestroyWatch (request : FimdConfig) (st : Fimd) :
  let pids := pids_of request in
  let node := cfg_nodename request in
  pids <> [] ->
  nul_free node = true ->
  fst (findFimdWatcherByPids indet node pids st) = None ->
  fst (Destroy request (snd (Create request st))) = OK
  /\ watchers_ (snd (Destroy request (snd (Create request st))))
     = watchers_ st.
Proof.
  intros pids node Hne Hnul Hfind.
  rewrite findFimdWatcherByPids_run in Hfind; cbn [fst] in Hfind.
  rewrite (CreateWatch_miss_run MQ_QUEUE_NAME MQ_MAX_SIZE FIMNOTIFY_KILL
             getPidForContainer cleanContainerId indet request st Hne Hfind).
  cbn [snd].
  match goal with
  | |- context [Destroy request ?s] => set (st' := s)
  end.
  pose proof (DestroyWatch_run MQ_EXIT_MESSAGE FIMNOTIFY_KILL
                getPidForContainer cleanContainerId indet request st' Hne)
    as Hrun.
  cbv zeta in Hrun.
  set (w' := copy_handle _) in st'.
  assert (Hf : find_watcher indet (watchers_ st') node pids
               = Some (List.length (watchers_ st))).
  { subst st'; cbn [watchers_]; unfold find_watcher.
    apply find_if_app_last; [exact Hfind|].
    apply watcher_matches_own; [assumption| |reflexivity].
    subst w'; cbn [copy_handle set_processeventfd nodename].
    now apply c_str_nul_free. }
  fold pids node in Hrun; rewrite Hf in Hrun.
  rewrite (Hrun w').
  - cbn [fst snd with_registry watchers_]; split; [reflexivity|].
    subst st'; cbn [watchers_]; apply remove_at_app_last.
  - subst st'; cbn [watchers_].
    now rewrite nth_error_app2, Nat.sub_diag by lia.
Qed.

End CreateWatchMiss.

Lemma CreateWatch_miss_appends_witness :
  exists response st',
    CreateWatch "/fimd" 1024 1 pid_for strip_scheme false
      (request_for ["c1"; "c2"]%string) (running [5]) = (OK, response, st')
    /\ List.length (filter (covers "nodeA" [42; 43]) (watchers_ st')) = 2%nat.
Proof.
  destruct (CreateWatch_miss_appends "/fimd" 1024 1 pid_for strip_scheme false
              (request_for ["c1"; "c2"]%string) (running [5]))
    as (response & st' & H & _ & _ & Hl).
  - vm_compute; discriminate.
  - reflexivity.
  - reflexivity.
  - exists response, st'; split; assumption.
Defined.

Lemma CreateWatch_then_DestroyWatch_witness :
  watchers_
    (snd (DestroyWatch "exit" 1 pid_for strip_scheme false
            (request_for ["c2"%string])
            (snd (CreateWatch "/fimd" 1024 1 pid_for strip_scheme false
                    (request_for ["c2"%string]) (running [5])))))
  = watchers_ (running [5]).
Proof.
  apply (CreateWatch_then_DestroyWatch "/fimd" 1024 "exit" 1 pid_for
           strip_scheme false (request_for ["c2"%string]) (running [5])).
  - vm_compute; discriminate.
  - reflexivity.
  - reflexivity.
Defined.

(** ** [CreateWatch] when the lookup finds a watcher *)

Lemma contents_fold_Add fds :
  forall rf,
    RF.wf rf ->
    RF.contents (fold_left RF.Add fds rf) = RF.contents rf ++ fds
    /\ RF.wf (fold_left RF.Add fds rf).
Proof.
  induction fds as [|fd fds IH]; intros rf Hwf; cbn [fold_left].
  - now rewrite app_nil_r.
  - destruct (contents_Add rf fd Hwf) as [Hc Hwf'].
    destruct (IH _ Hwf') as [Hc' Hwf''].
    now rewrite Hc', Hc, <- app_assoc.
Qed.

Lemma wf_Clear rf : RF.wf (RF.Clear rf) /\ RF.contents (RF.Clear rf) = [].
Proof. unfold RF.wf, RF.contents, RF.Clear; cbn; split; [lia|reflexivity]. Qed.

(** X16. When the lookup finds a watcher, [CreateWatch] updates it in
    place.  The registry keeps its length and every other watcher is
    left as it is; the watcher found keeps its node, its pod, its pids
    and the queue handle it was stored with, and its descriptor list
    becomes the descriptor list of the response.  Before that, the old
    descriptors get their wake-up writes, one per descriptor the
    watcher listed, and only then is the old queue closed and unlinked
    and the queue opened again. *)
Theorem CreateWatch_update
    (MQ_QUEUE_NAME : string) (MQ_MAX_SIZE FIMNOTIFY_KILL : Z)
    (getPidForContainer : string -> Z) (cleanContainerId : string -> string)
    (indet : bool) (request : FimdConfig) (st : Fimd) (w : nat) :
  let pids := getPidsFromRequest getPidForContainer cleanContainerId request in
  pids <> [] ->
  fst (findFimdWatcherByPids indet (cfg_nodename request) pids st) = Some w ->
  (forall h, In h (watchers_ st) -> RF.wf (processeventfd h)) ->
  exists h response st' h' fds later,
    nth_error (watchers_ st) w = Some h
    /\ CreateWatch MQ_QUEUE_NAME MQ_MAX_SIZE FIMNOTIFY_KILL getPidForContainer
         cleanContainerId indet request st = (OK, response, st')
    /\ List.length (watchers_ st') = List.length (watchers_ st)
    /\ (forall j, j <> w ->
                  nth_error (watchers_ st') j = nth_error (watchers_ st) j)
    /\ nth_error (watchers_ st') w = Some h'
    /\ nodename h' = nodename h /\ podname h' = podname h
    /\ pid h' = pid h /\ mqfd h' = mqfd h
    /\ RF.contents (processeventfd h') = RF.contents (processeventfd response)
    /\ trace st'
       = trace st
         ++ LogInfo "Updating inotify watcher..."
            :: map (fun fd => WriteFd fd (uint64 FIMNOTIFY_KILL) 8) fds
         ++ MqClose (mq_ st) :: MqUnlink MQ_QUEUE_NAME
            :: MqOpen MQ_QUEUE_NAME 10 MQ_MAX_SIZE (hd EOF (mq_open_supply st))
            :: later
    /\ List.length fds = List.length (RF.contents (processeventfd h))
    /\ incl fds (RF.contents (processeventfd h)).
Proof.
  intros pids Hne Hfind Hwf.
  rewrite findFimdWatcherByPids_run in Hfind; cbn [fst] in Hfind.
  destruct (find_if_bound _ _ _ Hfind) as (h & Hh & Hin).
  destruct (kill_pure_whole (processeventfd h) (Hwf h Hin))
    as (Hwfk & Hl & Hi & _).
  cbv zeta in Hwfk, Hl, Hi.
  pose proof (CreateWatch_hit_run MQ_QUEUE_NAME MQ_MAX_SIZE FIMNOTIFY_KILL
                getPidForContainer cleanContainerId indet request st w h
                Hne Hfind Hh) as Hrun.
  cbv zeta in Hrun.
  set (k := kill_pure (processeventfd h) 0 _) in *.
  match type of Hrun with
  | _ = (OK, ?r, ?s) => set (response := r) in *; set (st' := s) in *
  end.
  destruct (wf_Clear (fst k)) as [Hwfc Hcc].
  destruct (contents_fold_Add (RF.contents (processeventfd response))
              (RF.Clear (fst k)) Hwfc) as [Hc _].
  rewrite Hcc in Hc; cbn [app] in Hc.
  eexists h, response, st', _, (snd k), _.
  split; [exact Hh|].
  split; [exact Hrun|].
  subst st'; cbn [watchers_ trace].
  split; [apply length_update_at|].
  split; [intros j Hj; now apply nth_error_update_at_other|].
  split; [now apply (nth_error_update_at _ _ _ _ Hh)|].
  cbn [set_processeventfd nodename podname pid mqfd processeventfd].
  repeat (split; [reflexivity|]).
  split; [exact Hc|].
  split; [|split; assumption].
  unfold queue_calls; cbn [app]; reflexivity.
Qed.

Lemma CreateWatch_update_witness :
  exists h' later,
    nth_error
      (watchers_
         (snd (CreateWatch "/fimd" 1024 1 pid_for strip_scheme false
                 (request_for ["c1"%string]) (running [5; 6])))) 0
    = Some h'
    /\ mqfd h' = 3
    /\ RF.contents (processeventfd h') = [6]
    /\ trace (snd (CreateWatch "/fimd" 1024 1 pid_for strip_scheme false
                     (request_for ["c1"%string]) (running [5; 6])))
       = later.
Proof.
  destruct (CreateWatch_update "/fimd" 1024 1 pid_for strip_scheme false
              (request_for ["c1"%string]) (running [5; 6]) 0)
    as (h & response & st' & h' & fds & later & Hh & Hrun & _ & _ & Hh'
        & _ & _ & _ & Hmq & Hc & _).
  - vm_compute; discriminate.
  - reflexivity.
  - intros h [<-|[]]; unfold RF.wf; simpl; lia.
  - injection Hh as <-; rewrite Hrun.
    exists h'; eexists; repeat split; try assumption.
    rewrite Hc.
    change response with
      (snd (fst (OK, response, st'))); rewrite <- Hrun; reflexivity.
Defined.

(** ** The stand-alone watcher *)





(** X18. When the first [inotify_add_watch] fails, [main] leaves through
    [errExit] after a message that names [argv[1]], not the path
    [argv[2]] it tried to watch. *)
Theorem demo_watch_failure
    (open_fd setns_result inotify_fd : Z)
    (inotify_add_watch : string -> Z -> Z) (argv : list string) :
  (3 <= List.length argv)%nat ->
  open_fd <> -1 -> setns_result <> -1 -> inotify_fd <> -1 ->
  inotify_add_watch (nth 2 argv EmptyString) (Z.lor IN_OPEN IN_MODIFY) = -1 ->
  Demo.main_setup open_fd setns_result inotify_fd inotify_add_watch argv
  = Demo.ErrExit "inotify_add_watch"
      ("Cannot watch '" ++ nth 1 argv EmptyString ++ "'" ++ Demo.newline).
Proof.
  intros Hargc Ho Hs Hi Hw.
  destruct argv as [|a0 [|a1 [|a2 more]]]; cbn [List.length] in Hargc;
    try lia.
  unfold Demo.main_setup; cbn [List.length Nat.ltb Nat.leb tl repeat].
  destruct (Z.eqb_spec open_fd (-1)); [contradiction|].
  destruct (Z.eqb_spec setns_result (-1)); [contradiction|].
  destruct (Z.eqb_spec inotify_fd (-1)); [contradiction|].
  cbn [Demo.add_watches]; rewrite Hw; reflexivity.
Qed.

Lemma demo_watch_failure_witness :
  Demo.main_setup 3 0 4 (fun _ _ => -1)
    ["fim"; "/proc/42/ns/mnt"; "/etc"]%string
  = Demo.ErrExit "inotify_add_watch"
      ("Cannot watch '/proc/42/ns/mnt'" ++ Demo.newline).
Proof.
  apply (demo_watch_failure 3 0 4 (fun _ _ => -1)
           ["fim"; "/proc/42/ns/mnt"; "/etc"]%string);
    try lia; try reflexivity.
Defined.
